(** * Fixed-size record access: positional I/O and memory-mapped accessors

    Shallow embedding of [mmap_reader.go] (package main of perbu/mmaps-in-go):
    the record geometry, the four accessors ([ReaderAtReader],
    [WriterAtWriter], [MmapReader], [MmapWriter]) and the page-residency
    helpers of the mapped writer.

    Go values are modelled as follows.
    - [int] is a 64-bit two's complement integer: a [Z] with the wrap-around
      of [+] and [*] written out ([GoInt]).
    - [[]byte] is a slice header (pointer, length, capacity) into a store of
      backing arrays, so that two slices can share storage and a slice
      expression allocates nothing.
    - [*os.File] is a nullable handle.  What the operating system answers to
      [ReadAt], [WriteAt], [Close], [unix.Munmap] and [unix.Madvise] is not
      part of the repository: it is a parameter ([OS]) of every definition,
      and every call is recorded in a trace. *)

From Stdlib Require Import ZArith Lia.
From Stdlib.Strings Require Import Byte.
From stdpp Require Import base numbers option list gmap strings.

Open Scope Z_scope.

(** ** Record geometry (the package constants) *)

Definition RecordSize : Z := 100.
Definition RecordCount : Z := 1000000.

(** ** Go's [int] on the 64-bit targets of the README (amd64, arm64) *)

Module GoInt.

Definition min_int : Z := - 2 ^ 63.
Definition max_int : Z := 2 ^ 63 - 1.

Definition wrap (z : Z) : Z := (z + 2 ^ 63) mod 2 ^ 64 - 2 ^ 63.

Definition add (a b : Z) : Z := wrap (a + b).
Definition mul (a b : Z) : Z := wrap (a * b).

Definition in_range (z : Z) : Prop := min_int <= z <= max_int.

End GoInt.

(** ** Memory: backing arrays and slice headers *)

(** The identity of a backing array (an allocation, or a mapping). *)
Definition addr := positive.

Abbreviation heap := (gmap positive (list byte)).

(** A slice header.  [ptr] is [None] for Go's [nil] slice; otherwise it
    names the backing array and the index of the slice's first element. *)
Record slice : Type := Slice {
  ptr  : option (addr * nat);
  slen : nat;
  scap : nat
}.

Definition nil_slice : slice := {| ptr := None; slen := 0; scap := 0 |}.

(** [s == nil] *)
Definition is_nil (s : slice) : bool :=
  match ptr s with None => true | Some _ => false end.

(** [len(s)] and [cap(s)], as Go [int]s. *)
Definition len (s : slice) : Z := Z.of_nat (slen s).
Definition cap (s : slice) : Z := Z.of_nat (scap s).

(** The header is well formed in a store: length within capacity, and the
    capacity within the backing array.  Every slice value a Go program can
    hold satisfies this. *)
Definition valid (h : heap) (s : slice) : Prop :=
  (slen s <= scap s)%nat /\
  match ptr s with
  | None => scap s = 0%nat
  | Some (a, st) =>
      exists arr, h !! a = Some arr /\ (st + scap s <= length arr)%nat
  end.

(** The bytes a slice denotes. *)
Definition load (h : heap) (s : slice) : list byte :=
  match ptr s with
  | None => []
  | Some (a, st) =>
      match h !! a with
      | Some arr => take (slen s) (drop st arr)
      | None => []
      end
  end.

(** Storing [bs] at the start of [dst]: at most [len(dst)] bytes are
    written, the rest of the backing array is kept. *)
Definition store (h : heap) (dst : slice) (bs : list byte) : heap :=
  match ptr dst with
  | None => h
  | Some (a, st) =>
      match h !! a with
      | Some arr =>
          let n := Nat.min (slen dst) (length bs) in
          <[a := take st arr ++ take n bs ++ drop (st + n) arr]> h
      | None => h
      end
  end.

(** The builtin [copy(dst, src)]: the source bytes are read first, so
    overlapping slices behave as with memmove. *)
Definition copy (dst src : slice) (h : heap) : heap :=
  store h dst (load h src).

(** The slice expression [s[lo:hi]].  [None] is the run-time panic
    "slice bounds out of range"; the result shares the backing array. *)
Definition reslice (s : slice) (lo hi : Z) : option slice :=
  if (0 <=? lo) && (lo <=? hi) && (hi <=? cap s) then
    Some {| ptr  := (fun p => (p.1, (p.2 + Z.to_nat lo)%nat)) <$> ptr s;
            slen := Z.to_nat (hi - lo);
            scap := (scap s - Z.to_nat lo)%nat |}
  else None.

(** Byte [j] of backing array [a], when there is one. *)
Definition byte_at (h : heap) (a : addr) (j : nat) : option byte :=
  h !! a ≫= (fun arr => arr !! j).

(** Cell [j] of array [a] belongs to the slice [s]. *)
Definition covers (s : slice) (a : addr) (j : nat) : Prop :=
  exists st, ptr s = Some (a, st) /\ (st <= j < st + slen s)%nat.

(** ** Errors and results *)

(** An error value handed back by the operating system or the Go library:
    the sentinel [io.EOF], or any other error. *)
Inductive oserror : Type :=
| EOF
| Errno (code : Z).

(** [os.ErrInvalid], [os.ErrClosed] as seen through the handle table below. *)
Definition EINVAL : oserror := Errno 22.
Definition EBADF : oserror := Errno 9.

(** The errors the accessors build with [fmt.Errorf], one constructor per
    format string, carrying the values the message is formatted with. *)
Inductive error : Type :=
| ErrIndexOutOfRange (index count : Z)
    (* "index %d out of range [0, %d)" *)
| ErrBufferTooSmall (need got : Z)
    (* "buffer too small: need %d bytes, got %d" *)
| ErrReadAt (offset : Z) (cause : oserror)
    (* "failed to read at offset %d: %w" *)
| ErrPartialRead (expected got : Z)
    (* "partial read: expected %d bytes, got %d" *)
| ErrSizeMismatch (expected got : Z)
    (* "data size mismatch: expected %d bytes, got %d" *)
| ErrWriteAt (offset : Z) (cause : oserror)
    (* "failed to write at offset %d: %w" *)
| ErrPartialWrite (expected wrote : Z)
    (* "partial write: expected %d bytes, wrote %d" *)
| ErrExceedsBounds (index : Z).
    (* "record %d would exceed file bounds" *)

(** What a call does: return a value, return an error, or panic. *)
Inductive outcome (A : Type) : Type :=
| Ok (a : A)
| Err (e : error)
| Panic.

Arguments Ok {A} a.
Arguments Err {A} e.
Arguments Panic {A}.

(** ** The operating system *)

(** [*os.File]: [None] is the nil pointer. *)
Abbreviation File := (option positive).

(** The calls that leave the process, and the page touches of [WarmPages]. *)
Inductive event : Type :=
| EvReadAt (f : File) (p : slice) (off : Z)
| EvWriteAt (f : File) (b : list byte) (off : Z)
| EvMunmap (b : slice)
| EvClose (f : File)
| EvMadvise (b : slice) (advice : Z)
| EvTouch (b : slice) (i : Z).

(** The environment: what each call answers, as a function of a kernel
    state [K] of its own.  [pread] returns the bytes it delivers, the count
    it reports and the error it reports, with no relation assumed between
    the three. *)
Record OS (K : Type) : Type := {
  pread   : File -> nat -> Z -> K -> (list byte * Z * option oserror) * K;
  pwrite  : File -> list byte -> Z -> K -> (Z * option oserror) * K;
  munmap  : slice -> K -> option oserror * K;
  fclose  : File -> K -> option oserror * K;
  madvise : slice -> Z -> K -> option oserror * K
}.

Arguments pread {K} _ _ _ _ _.
Arguments pwrite {K} _ _ _ _ _.
Arguments munmap {K} _ _ _.
Arguments fclose {K} _ _ _.
Arguments madvise {K} _ _ _ _.

(** The state a call runs in: process memory, kernel state, and the calls
    made so far. *)
Record World (K : Type) : Type := mkWorld {
  mem   : heap;
  kern  : K;
  trace : list event
}.

Arguments mkWorld {K} _ _ _.
Arguments mem {K} _.
Arguments kern {K} _.
Arguments trace {K} _.

Definition MADV_DONTNEED : Z := 4.

Section Syscalls.

Context {K : Type} (os : OS K).

(** [os.File.ReadAt(p, off)]: the bytes delivered land in [p]. *)
Definition File_ReadAt (f : File) (p : slice) (off : Z) (w : World K)
  : (Z * option oserror) * World K :=
  let '((bs, n, err), k) := pread os f (slen p) off (kern w) in
  ((n, err), mkWorld (store (mem w) p bs) k (trace w ++ [EvReadAt f p off])).

(** [os.File.WriteAt(b, off)] *)
Definition File_WriteAt (f : File) (b : slice) (off : Z) (w : World K)
  : (Z * option oserror) * World K :=
  let bs := load (mem w) b in
  let '((n, err), k) := pwrite os f bs off (kern w) in
  ((n, err), mkWorld (mem w) k (trace w ++ [EvWriteAt f bs off])).

(** [os.File.Close()] *)
Definition File_Close (f : File) (w : World K) : option oserror * World K :=
  let '(err, k) := fclose os f (kern w) in
  (err, mkWorld (mem w) k (trace w ++ [EvClose f])).

(** [unix.Munmap(b)].  The store keeps the array: what becomes of the
    memory after a successful unmapping is not followed. *)
Definition unix_Munmap (b : slice) (w : World K) : option oserror * World K :=
  let '(err, k) := munmap os b (kern w) in
  (err, mkWorld (mem w) k (trace w ++ [EvMunmap b])).

(** [unix.Madvise(b, advice)]: advice only, process memory is not an
    argument of the answer and is left as it is. *)
Definition unix_Madvise (b : slice) (advice : Z) (w : World K)
  : option oserror * World K :=
  let '(err, k) := madvise os b advice (kern w) in
  (err, mkWorld (mem w) k (trace w ++ [EvMadvise b advice])).

End Syscalls.

(** The index expression [b[i]] with its value discarded ([_ = b[i]]):
    [None] is the run-time panic "index out of range". *)
Definition touch {K : Type} (b : slice) (i : Z) (w : World K) : option (World K) :=
  if (0 <=? i) && (i <? len b) then
    Some (mkWorld (mem w) (kern w) (trace w ++ [EvTouch b i]))
  else None.

(** The range test every accessor starts with:
    [index < 0 || index >= RecordCount]. *)
Definition out_of_range (index : Z) : bool :=
  (index <? 0) || (index >=? RecordCount).

(** ** ReaderAtReader: positional reads *)

Module ReaderAtReader.

Record t : Type := { file : File }.

Section Methods.

Context {K : Type} (os : OS K).

(** [func (r *ReaderAtReader) ReadRecord(index int, buf []byte) ([]byte, error)].
    The conversion [int64(...)] of the offset is the identity on a
    64-bit [int]. *)
Definition ReadRecord (r : t) (index : Z) (buf : slice) (w : World K)
  : outcome slice * World K :=
  if out_of_range index then
    (Err (ErrIndexOutOfRange index RecordCount), w)
  else if len buf <? RecordSize then
    (Err (ErrBufferTooSmall RecordSize (len buf)), w)
  else
    let offset := GoInt.mul index RecordSize in
    match reslice buf 0 RecordSize with
    | None => (Panic, w)
    | Some p =>
        let '((n, err), w1) := File_ReadAt os (file r) p offset w in
        match err with
        | Some (Errno c) =>      (* err != nil && err != io.EOF *)
            (Err (ErrReadAt offset (Errno c)), w1)
        | _ =>
            if negb (n =? RecordSize) then
              (Err (ErrPartialRead RecordSize n), w1)
            else
              match reslice buf 0 RecordSize with
              | None => (Panic, w1)
              | Some q => (Ok q, w1)
              end
        end
    end.

(** [func (r *ReaderAtReader) Close() error] *)
Definition Close (r : t) (w : World K) : option oserror * World K :=
  File_Close os (file r) w.

End Methods.

End ReaderAtReader.

(** ** WriterAtWriter: positional writes *)

Module WriterAtWriter.

Record t : Type := { file : File }.

Section Methods.

Context {K : Type} (os : OS K).

(** [func (w *WriterAtWriter) WriteRecord(index int, data []byte) error] *)
Definition WriteRecord (wr : t) (index : Z) (data : slice) (w : World K)
  : outcome unit * World K :=
  if out_of_range index then
    (Err (ErrIndexOutOfRange index RecordCount), w)
  else if negb (len data =? RecordSize) then
    (Err (ErrSizeMismatch RecordSize (len data)), w)
  else
    let offset := GoInt.mul index RecordSize in
    let '((n, err), w1) := File_WriteAt os (file wr) data offset w in
    match err with
    | Some e => (Err (ErrWriteAt offset e), w1)
    | None =>
        if negb (n =? RecordSize) then
          (Err (ErrPartialWrite RecordSize n), w1)
        else (Ok tt, w1)
    end.

(** [func (w *WriterAtWriter) Close() error] *)
Definition Close (wr : t) (w : World K) : option oserror * World K :=
  File_Close os (file wr) w.

End Methods.

End WriterAtWriter.

(** Teardown shared, line for line, by [MmapReader.Close] and
    [MmapWriter.Close]: each step runs if its field is not nil, and the
    first error wins. *)
Definition mapped_close {K : Type} (os : OS K) (file : File) (data : slice)
    (w : World K) : option oserror * World K :=
  let '(err1, w1) :=
    if negb (is_nil data) then unix_Munmap os data w else (None, w) in
  let '(err2, w2) :=
    match file with
    | Some _ => File_Close os file w1
    | None => (None, w1)
    end in
  match err1 with
  | Some e => (Some e, w2)
  | None => (err2, w2)
  end.

(** ** MmapReader: reads through a mapping *)

Module MmapReader.

Record t : Type := { file : File; data : slice }.

Section Methods.

Context {K : Type} (os : OS K).

(** [func (m *MmapReader) ReadRecord(index int, buf []byte) ([]byte, error)] *)
Definition ReadRecord (m : t) (index : Z) (buf : slice) (w : World K)
  : outcome slice * World K :=
  if out_of_range index then
    (Err (ErrIndexOutOfRange index RecordCount), w)
  else
    let offset := GoInt.mul index RecordSize in
    if GoInt.add offset RecordSize >? len (data m) then
      (Err (ErrExceedsBounds index), w)
    else
      match reslice (data m) offset (GoInt.add offset RecordSize) with
      | None => (Panic, w)
      | Some v => (Ok v, w)
      end.

(** [func (m *MmapReader) Close() error] *)
Definition Close (m : t) (w : World K) : option oserror * World K :=
  mapped_close os (file m) (data m) w.

End Methods.

End MmapReader.

(** ** MmapWriter: writes through a shared mapping, and page residency *)

Module MmapWriter.

Record t : Type := { file : File; data : slice }.

Definition pageSize : Z := 4096.

Section Methods.

Context {K : Type} (os : OS K).

(** [func (w *MmapWriter) WriteRecord(index int, data []byte) error] *)
Definition WriteRecord (m : t) (index : Z) (payload : slice) (w : World K)
  : outcome unit * World K :=
  if out_of_range index then
    (Err (ErrIndexOutOfRange index RecordCount), w)
  else if negb (len payload =? RecordSize) then
    (Err (ErrSizeMismatch RecordSize (len payload)), w)
  else
    let offset := GoInt.mul index RecordSize in
    if GoInt.add offset RecordSize >? len (data m) then
      (Err (ErrExceedsBounds index), w)
    else
      match reslice (data m) offset (GoInt.add offset RecordSize) with
      | None => (Panic, w)
      | Some dst =>
          (Ok tt, mkWorld (copy dst payload (mem w)) (kern w) (trace w))
      end.

(** [func (w *MmapWriter) Close() error] *)
Definition Close (m : t) (w : World K) : option oserror * World K :=
  mapped_close os (file m) (data m) w.

(** [func (w *MmapWriter) EvictPages() error] *)
Definition EvictPages (m : t) (w : World K) : option oserror * World K :=
  if is_nil (data m) then (None, w)
  else unix_Madvise os (data m) MADV_DONTNEED w.

(** The loop [for i := 0; i < len(w.data); i += pageSize { _ = w.data[i] }]
    from the value [i] of its counter.  [None]: the fuel ran out
    before the loop condition failed. *)
Fixpoint warm_loop (fuel : nat) (d : slice) (i : Z) (w : World K)
  : option (outcome unit * World K) :=
  if i <? len d then
    match fuel with
    | O => None
    | S fuel' =>
        match touch d i w with
        | None => Some (Panic, w)
        | Some w1 => warm_loop fuel' d (GoInt.add i pageSize) w1
        end
    end
  else Some (Ok tt, w).

(** [func (w *MmapWriter) WarmPages()].  A mapping of [n] bytes has at
    most [n / pageSize + 1] pages, which is the fuel given. *)
Definition WarmPages (m : t) (w : World K) : option (outcome unit * World K) :=
  if is_nil (data m) then Some (Ok tt, w)
  else warm_loop (Z.to_nat (len (data m) / pageSize) + 1) (data m) 0 w.

End Methods.

End MmapWriter.

(** ** The interfaces [Reader] and [Writer] *)

Class Reader (K T : Type) : Type := {
  ReadRecord : T -> Z -> slice -> World K -> outcome slice * World K;
  reader_Close : T -> World K -> option oserror * World K
}.

Class Writer (K T : Type) : Type := {
  WriteRecord : T -> Z -> slice -> World K -> outcome unit * World K;
  writer_Close : T -> World K -> option oserror * World K
}.

#[export] Instance ReaderAtReader_Reader {K : Type} (os : OS K)
  : Reader K ReaderAtReader.t :=
  {| ReadRecord := ReaderAtReader.ReadRecord os;
     reader_Close := ReaderAtReader.Close os |}.

#[export] Instance MmapReader_Reader {K : Type} (os : OS K)
  : Reader K MmapReader.t :=
  {| ReadRecord := MmapReader.ReadRecord;
     reader_Close := MmapReader.Close os |}.

#[export] Instance WriterAtWriter_Writer {K : Type} (os : OS K)
  : Writer K WriterAtWriter.t :=
  {| WriteRecord := WriterAtWriter.WriteRecord os;
     writer_Close := WriterAtWriter.Close os |}.

#[export] Instance MmapWriter_Writer {K : Type} (os : OS K)
  : Writer K MmapWriter.t :=
  {| WriteRecord := MmapWriter.WriteRecord;
     writer_Close := MmapWriter.Close os |}.

(** ** Two environments *)

(** A file system that behaves: the kernel state is the table of open
    handles with the content of the file behind each.  [ReadAt] delivers
    what the file holds from [off] on and signals [io.EOF] exactly when
    that is less than asked for; [WriteAt] writes everything, extending
    the file with zero bytes when needed. *)
Abbreviation files := (gmap positive (list byte)).

Definition posix_pread (f : File) (n : nat) (off : Z) (k : files)
  : (list byte * Z * option oserror) * files :=
  match f with
  | None => (([], 0, Some EINVAL), k)
  | Some h =>
      match k !! h with
      | None => (([], 0, Some EBADF), k)
      | Some content =>
          if off <? 0 then (([], 0, Some EINVAL), k)
          else
            let got := take n (drop (Z.to_nat off) content) in
            ((got, Z.of_nat (length got),
              if (length got <? n)%nat then Some EOF else None), k)
      end
  end.

Definition posix_pwrite (f : File) (b : list byte) (off : Z) (k : files)
  : (Z * option oserror) * files :=
  match f with
  | None => ((0, Some EINVAL), k)
  | Some h =>
      match k !! h with
      | None => ((0, Some EBADF), k)
      | Some content =>
          if off <? 0 then ((0, Some EINVAL), k)
          else
            let o := Z.to_nat off in
            let padded := content ++ replicate (o - length content)%nat x00 in
            ((Z.of_nat (length b), None),
             <[h := take o padded ++ b ++ drop (o + length b)%nat content]> k)
      end
  end.

Definition posix_fclose (f : File) (k : files) : option oserror * files :=
  match f with
  | None => (Some EINVAL, k)
  | Some h =>
      match k !! h with
      | None => (Some EBADF, k)
      | Some _ => (None, delete h k)
      end
  end.

Definition posix : OS files := {|
  pread := posix_pread;
  pwrite := posix_pwrite;
  munmap := fun _ k => (None, k);
  fclose := posix_fclose;
  madvise := fun _ _ k => (None, k)
|}.

(** A scripted environment: the kernel state is the list of answers still
    to give, one per call, whatever the call; with the script used up
    every call succeeds and transfers nothing. *)
Definition reply : Type := list byte * Z * option oserror.

Definition next_reply (k : list reply) : reply * list reply :=
  match k with
  | r :: k' => (r, k')
  | [] => (([], 0, None), [])
  end.

Definition scripted : OS (list reply) := {|
  pread := fun _ _ _ k => next_reply k;
  pwrite := fun _ _ _ k => let '((_, n, e), k') := next_reply k in ((n, e), k');
  munmap := fun _ k => let '((_, _, e), k') := next_reply k in (e, k');
  fclose := fun _ k => let '((_, _, e), k') := next_reply k in (e, k');
  madvise := fun _ _ k => let '((_, _, e), k') := next_reply k in (e, k')
|}.

(** ** Opening a file and mapping it *)

(** The errors the constructors build with [fmt.Errorf]. *)
Inductive open_error : Type :=
| ErrOpen (cause : oserror)
    (* "failed to open file: %w" *)
| ErrOpenForWriting (cause : oserror)
    (* "failed to open file for writing: %w" *)
| ErrStat (cause : oserror)
    (* "failed to stat file: %w" *)
| ErrMmap (cause : oserror)
    (* "failed to mmap file: %w" *)
| ErrMmapForWriting (cause : oserror).
    (* "failed to mmap file for writing: %w" *)

(** What a constructor returns: the accessor with a nil error, or nil with
    an error. *)
Inductive constructed (T : Type) : Type :=
| Built (t : T)
| Failed (e : open_error).

Arguments Built {T} t.
Arguments Failed {T} e.

Definition O_RDONLY : Z := 0.
Definition O_RDWR : Z := 2.
Definition PROT_READ : Z := 1.
Definition PROT_WRITE : Z := 2.
Definition MAP_SHARED : Z := 1.
Definition MAP_PRIVATE : Z := 2.

(** The environment's answers to the three calls of the constructors:
    [open] gives a handle, [fstat] the size of the file, [mmap] the bytes
    the new mapping shows.  These calls are not events of the trace, which
    keeps recording the calls of [event] only. *)
Record Opener (K : Type) : Type := {
  sys_open  : string -> Z -> Z -> K -> (File * option oserror) * K;
  sys_fstat : File -> K -> (Z * option oserror) * K;
  sys_mmap  : File -> Z -> Z -> Z -> Z -> K -> (list byte * option oserror) * K
}.

Arguments sys_open {K} _ _ _ _ _.
Arguments sys_fstat {K} _ _ _.
Arguments sys_mmap {K} _ _ _ _ _ _ _.

Section Opening.

Context {K : Type} (os : OS K) (op : Opener K).

(** [os.OpenFile(name, flag, perm)]; [os.Open(name)] is
    [os.OpenFile(name, O_RDONLY, 0)]. *)
Definition os_OpenFile (name : string) (flag perm : Z) (w : World K)
  : (File * option oserror) * World K :=
  let '((f, err), k) := sys_open op name flag perm (kern w) in
  ((f, err), mkWorld (mem w) k (trace w)).

Definition os_Open (name : string) (w : World K)
  : (File * option oserror) * World K :=
  os_OpenFile name O_RDONLY 0 w.

(** [file.Stat()], of which only [Size()] is used. *)
Definition File_Stat (f : File) (w : World K)
  : (Z * option oserror) * World K :=
  let '((size, err), k) := sys_fstat op f (kern w) in
  ((size, err), mkWorld (mem w) k (trace w)).

(** [unix.Mmap(fd, offset, length, prot, flags)]: on success a new backing
    array holding the bytes of the mapping, and the slice of all of it; on
    failure the nil slice. *)
Definition unix_Mmap (f : File) (offset length prot flags : Z) (w : World K)
  : (slice * option oserror) * World K :=
  let '((bs, err), k) := sys_mmap op f offset length prot flags (kern w) in
  match err with
  | Some e => ((nil_slice, Some e), mkWorld (mem w) k (trace w))
  | None =>
      let a := fresh (dom (mem w)) in
      ((Slice (Some (a, 0%nat)) (List.length bs) (List.length bs), None),
       mkWorld (<[a := bs]> (mem w)) k (trace w))
  end.

(** [func NewReaderAtReader(filename string) ( *ReaderAtReader, error)] *)
Definition NewReaderAtReader (filename : string) (w : World K)
  : constructed ReaderAtReader.t * World K :=
  let '((file, err), w1) := os_Open filename w in
  match err with
  | Some e => (Failed (ErrOpen e), w1)
  | None => (Built {| ReaderAtReader.file := file |}, w1)
  end.

(** [func NewWriterAtWriter(filename string) ( *WriterAtWriter, error)] *)
Definition NewWriterAtWriter (filename : string) (w : World K)
  : constructed WriterAtWriter.t * World K :=
  let '((file, err), w1) := os_OpenFile filename O_RDWR 420 w in
  match err with
  | Some e => (Failed (ErrOpenForWriting e), w1)
  | None => (Built {| WriterAtWriter.file := file |}, w1)
  end.

(** [func NewMmapReader(filename string) ( *MmapReader, error)].  The
    result of [file.Close()] on the two failure paths is dropped, as in
    the source. *)
Definition NewMmapReader (filename : string) (w : World K)
  : constructed MmapReader.t * World K :=
  let '((file, err), w1) := os_Open filename w in
  match err with
  | Some e => (Failed (ErrOpen e), w1)
  | None =>
      let '((size, err), w2) := File_Stat file w1 in
      match err with
      | Some e =>
          let '(_, w3) := File_Close os file w2 in
          (Failed (ErrStat e), w3)
      | None =>
          let '((data, err), w3) :=
            unix_Mmap file 0 size PROT_READ MAP_PRIVATE w2 in
          match err with
          | Some e =>
              let '(_, w4) := File_Close os file w3 in
              (Failed (ErrMmap e), w4)
          | None =>
              (Built {| MmapReader.file := file; MmapReader.data := data |}, w3)
          end
      end
  end.

(** [func NewMmapWriter(filename string) ( *MmapWriter, error)] *)
Definition NewMmapWriter (filename : string) (w : World K)
  : constructed MmapWriter.t * World K :=
  let '((file, err), w1) := os_OpenFile filename O_RDWR 420 w in
  match err with
  | Some e => (Failed (ErrOpenForWriting e), w1)
  | None =>
      let '((size, err), w2) := File_Stat file w1 in
      match err with
      | Some e =>
          let '(_, w3) := File_Close os file w2 in
          (Failed (ErrStat e), w3)
      | None =>
          let '((data, err), w3) :=
            unix_Mmap file 0 size (Z.lor PROT_READ PROT_WRITE) MAP_SHARED w2 in
          match err with
          | Some e =>
              let '(_, w4) := File_Close os file w3 in
              (Failed (ErrMmapForWriting e), w4)
          | None =>
              (Built {| MmapWriter.file := file; MmapWriter.data := data |}, w3)
          end
      end
  end.

End Opening.

(** The file system that behaves, seen from the constructors: [disk] is
    the content of each named file.  Opening gives a handle that is not in
    use; mapping a positive number of bytes within the file shows the
    file's bytes (a length of zero is refused, as [mmap] does). *)
Definition ENOENT : oserror := Errno 2.

Definition posix_open (disk : gmap string (list byte)) (name : string)
    (flag perm : Z) (k : files) : (File * option oserror) * files :=
  match disk !! name with
  | None => ((None, Some ENOENT), k)
  | Some content =>
      let h := fresh (dom k) in
      ((Some h, None), <[h := content]> k)
  end.

Definition posix_fstat (f : File) (k : files) : (Z * option oserror) * files :=
  match f with
  | None => ((0, Some EINVAL), k)
  | Some h =>
      match k !! h with
      | None => ((0, Some EBADF), k)
      | Some content => ((Z.of_nat (length content), None), k)
      end
  end.

Definition posix_mmap (f : File) (offset length prot flags : Z) (k : files)
  : (list byte * option oserror) * files :=
  match f with
  | None => (([], Some EBADF), k)
  | Some h =>
      match k !! h with
      | None => (([], Some EBADF), k)
      | Some content =>
          if (length <=? 0) || (offset <? 0) then (([], Some EINVAL), k)
          else ((take (Z.to_nat length) (drop (Z.to_nat offset) content), None), k)
      end
  end.

Definition posix_opener (disk : gmap string (list byte)) : Opener files := {|
  sys_open := posix_open disk;
  sys_fstat := posix_fstat;
  sys_mmap := posix_mmap
|}.

(** ** Vocabulary of the statements *)

(** Two slices that live in different backing arrays. *)
Definition separate (s1 s2 : slice) : Prop :=
  match ptr s1, ptr s2 with
  | Some (a1, _), Some (a2, _) => a1 <> a2
  | _, _ => True
  end.

(** Cell [j] of array [a] lies in record [index] of the mapping [d]. *)
Definition record_cell (d : slice) (index : Z) (a : addr) (j : nat) : Prop :=
  exists st, ptr d = Some (a, st) /\
    Z.of_nat st + index * RecordSize <= Z.of_nat j
      < Z.of_nat st + index * RecordSize + RecordSize.

(** The offsets [WarmPages] is meant to touch in a mapping of [n] bytes:
    the multiples of the page size below [n], in increasing order. *)
Definition page_offsets (n : Z) : list Z :=
  map (fun k => Z.of_nat k * MmapWriter.pageSize)
      (seq 0 (Z.to_nat ((n + MmapWriter.pageSize - 1) / MmapWriter.pageSize))).

(** [n] page offsets starting from [i]. *)
Fixpoint pages_from (n : nat) (i : Z) : list Z :=
  match n with
  | O => []
  | S n' => i :: pages_from n' (i + MmapWriter.pageSize)
  end.

(** Pages still to touch when the loop counter is [i]. *)
Definition pages_left (d : slice) (i : Z) : nat :=
  Z.to_nat ((len d - i + MmapWriter.pageSize - 1) / MmapWriter.pageSize).

(** [content] with [b] written at [off], the gap past the end filled with
    zero bytes: what [posix_pwrite] leaves in the file. *)
Definition splice (content : list byte) (off : nat) (b : list byte) : list byte :=
  take off (content ++ replicate (off - length content)%nat x00)
    ++ b ++ drop (off + length b)%nat content.

(** ** Concrete worlds *)

(** A file of three records, a mapping of it (array 1), a caller's buffer
    of 128 bytes (array 2), a payload of one record (array 3) and a
    mapping of 10000 bytes, which is three pages (array 4). *)
Definition demo_file : list byte :=
  replicate 100 x01 ++ replicate 100 x02 ++ replicate 100 x03.

Definition demo_heap : heap :=
  <[1%positive := demo_file]>
    (<[2%positive := replicate 128 x00]>
       (<[3%positive := replicate 100 xff]>
          (<[4%positive := replicate (100 * 100) x00]> ∅))).

Definition demo_world : World files :=
  mkWorld demo_heap (<[7%positive := demo_file]> ∅) [].

Definition demo_mapping : slice := Slice (Some (1%positive, 0%nat)) 300 300.
Definition demo_buf : slice := Slice (Some (2%positive, 0%nat)) 128 128.
Definition demo_payload : slice := Slice (Some (3%positive, 0%nat)) 100 100.
Definition demo_pages : slice :=
  Slice (Some (4%positive, 0%nat)) (100 * 100) (100 * 100).

(** [make([]byte, 0, 128)]: room for a record, length zero. *)
Definition empty_buf : slice := Slice (Some (2%positive, 0%nat)) 0 128.

(** [make([]byte, 99)] and [make([]byte, 101)] inside array 2. *)
Definition short_payload : slice := Slice (Some (2%positive, 0%nat)) 99 99.
Definition long_payload : slice := Slice (Some (2%positive, 0%nat)) 101 101.

Definition demo_reader : ReaderAtReader.t := {| ReaderAtReader.file := Some 7%positive |}.
Definition demo_writer : WriterAtWriter.t := {| WriterAtWriter.file := Some 7%positive |}.
Definition demo_mreader : MmapReader.t :=
  {| MmapReader.file := Some 7%positive; MmapReader.data := demo_mapping |}.
Definition demo_mwriter : MmapWriter.t :=
  {| MmapWriter.file := Some 7%positive; MmapWriter.data := demo_mapping |}.
Definition demo_pager : MmapWriter.t :=
  {| MmapWriter.file := Some 7%positive; MmapWriter.data := demo_pages |}.

(** A world for the scripted environment. *)
Definition scripted_world (script : list reply) : World (list reply) :=
  mkWorld demo_heap script [].

(** A disk with the three-record file and an empty file. *)
Definition demo_disk : gmap string (list byte) :=
  <["data.bin"%string := demo_file]> (<["empty.bin"%string := []]> ∅).

(** The file of the specification, 100,000,000 bytes.  Its size as a
    [nat] is kept folded: nothing below computes with it. *)
Definition full_size : nat := Z.to_nat (RecordSize * RecordCount).

Definition full_file : list byte := replicate full_size x00.

Definition full_heap : heap :=
  <[1%positive := full_file]> (<[2%positive := replicate 128 x00]> ∅).

Definition full_world : World files :=
  mkWorld full_heap (<[7%positive := full_file]> ∅) [].

Definition full_mapping : slice :=
  Slice (Some (1%positive, 0%nat)) full_size full_size.

Definition full_buf : slice := Slice (Some (2%positive, 0%nat)) 100 128.

Definition full_mreader : MmapReader.t :=
  {| MmapReader.file := Some 7%positive; MmapReader.data := full_mapping |}.
Definition full_mwriter : MmapWriter.t :=
  {| MmapWriter.file := Some 7%positive; MmapWriter.data := full_mapping |}.

(** ** Tactics *)

Ltac geometry :=
  unfold RecordCount, RecordSize, len, cap in *; simpl; lia.

Ltac valid_here :=
  split; [simpl; lia | simpl; eexists; split; [reflexivity | simpl; lia]].

(** * Properties *)

(** ** Integer arithmetic stays exact on valid indices *)

Lemma wrap_id (z : Z) : GoInt.in_range z -> GoInt.wrap z = z.
Proof.
  unfold GoInt.in_range, GoInt.min_int, GoInt.max_int, GoInt.wrap.
  intros Hz. rewrite Z.mod_small; lia.
Qed.

Lemma out_of_range_true (index : Z) :
  out_of_range index = true <-> index < 0 \/ RecordCount <= index.
Proof. unfold out_of_range. rewrite orb_true_iff. lia. Qed.

Lemma out_of_range_false (index : Z) :
  out_of_range index = false <-> 0 <= index < RecordCount.
Proof. unfold out_of_range. rewrite orb_false_iff. lia. Qed.

Lemma offset_exact (index : Z) :
  0 <= index < RecordCount -> GoInt.mul index RecordSize = index * RecordSize.
Proof.
  intros Hi. unfold GoInt.mul. apply wrap_id.
  unfold GoInt.in_range, GoInt.min_int, GoInt.max_int, RecordCount, RecordSize in *.
  lia.
Qed.

Lemma offset_end_exact (index : Z) :
  0 <= index < RecordCount ->
  GoInt.add (GoInt.mul index RecordSize) RecordSize = index * RecordSize + RecordSize.
Proof.
  intros Hi. rewrite offset_exact by done. unfold GoInt.add. apply wrap_id.
  unfold GoInt.in_range, GoInt.min_int, GoInt.max_int, RecordCount, RecordSize in *.
  lia.
Qed.

(** Consecutive records are adjacent: no padding between them. *)
Lemma offset_stride (index : Z) :
  0 <= index -> index + 1 < RecordCount ->
  GoInt.mul (index + 1) RecordSize - GoInt.mul index RecordSize = RecordSize.
Proof. intros H0 H1. rewrite !offset_exact by lia. lia. Qed.

(** A correctly sized file holds every record. *)
Lemma sized_file_covers (n index : Z) :
  n = RecordSize * RecordCount -> 0 <= index < RecordCount ->
  index * RecordSize + RecordSize <= n.
Proof. unfold RecordSize, RecordCount. lia. Qed.

(** ** Slices and the store *)

Lemma valid_len_cap (h : heap) (s : slice) : valid h s -> len s <= cap s.
Proof. intros [Hle _]. unfold len, cap. lia. Qed.

Lemma valid_nonempty_ptr (h : heap) (s : slice) :
  valid h s -> 0 < len s ->
  exists a st arr, ptr s = Some (a, st) /\ h !! a = Some arr /\
                   (st + scap s <= length arr)%nat.
Proof.
  intros [Hle Hp] Hpos. unfold len in Hpos.
  destruct (ptr s) as [[a st]|]; [|lia].
  destruct Hp as (arr & Ha & Hb). by exists a, st, arr.
Qed.

Lemma load_length (h : heap) (s : slice) : valid h s -> length (load h s) = slen s.
Proof.
  intros [Hle Hp]. unfold load.
  destruct (ptr s) as [[a st]|]; [|simpl; lia].
  destruct Hp as (arr & -> & Hb).
  rewrite length_take, length_drop. lia.
Qed.

Lemma reslice_Some (s : slice) (lo hi : Z) :
  0 <= lo <= hi -> hi <= cap s ->
  reslice s lo hi =
    Some {| ptr  := (fun p => (p.1, (p.2 + Z.to_nat lo)%nat)) <$> ptr s;
            slen := Z.to_nat (hi - lo);
            scap := (scap s - Z.to_nat lo)%nat |}.
Proof.
  intros Hlo Hhi. unfold reslice.
  replace ((0 <=? lo) && (lo <=? hi) && (hi <=? cap s)) with true; [done|].
  symmetry. rewrite !andb_true_iff. lia.
Qed.

Lemma reslice_valid (h : heap) (s v : slice) (lo hi : Z) :
  valid h s -> reslice s lo hi = Some v -> valid h v.
Proof.
  intros [Hle Hp]. unfold reslice.
  destruct ((0 <=? lo) && (lo <=? hi) && (hi <=? cap s)) eqn:Hb; [|done].
  rewrite !andb_true_iff in Hb. destruct Hb as [[H0 H1] H2].
  unfold cap in H2. intros [= <-]. split; simpl; [lia|].
  destruct (ptr s) as [[a st]|]; simpl.
  - destruct Hp as (arr & Ha & Hb). exists arr. split; [done|]. lia.
  - lia.
Qed.

Lemma reslice_len (s v : slice) (lo hi : Z) :
  reslice s lo hi = Some v -> len v = hi - lo.
Proof.
  unfold reslice.
  destruct ((0 <=? lo) && (lo <=? hi) && (hi <=? cap s)) eqn:Hb; [|done].
  rewrite !andb_true_iff in Hb. intros [= <-]. unfold len. simpl. lia.
Qed.

(** A slice of a slice denotes the corresponding bytes of it, in every
    store: it is a view, not a copy. *)
Lemma load_reslice (h : heap) (s v : slice) (lo hi : Z) :
  reslice s lo hi = Some v -> hi <= len s ->
  load h v = take (Z.to_nat (hi - lo)) (drop (Z.to_nat lo) (load h s)).
Proof.
  unfold reslice.
  destruct ((0 <=? lo) && (lo <=? hi) && (hi <=? cap s)) eqn:Hb; [|done].
  rewrite !andb_true_iff in Hb. destruct Hb as [[H0 H1] H2].
  intros [= <-] Hhi. unfold load, len in *. simpl.
  destruct (ptr s) as [[a st]|]; simpl; [|by rewrite drop_nil, take_nil].
  destruct (h !! a) as [arr|]; [|by rewrite drop_nil, take_nil].
  replace (slen s) with (Z.to_nat lo + (slen s - Z.to_nat lo))%nat at 1 by lia.
  rewrite <- take_drop_commute, take_take, drop_drop.
  f_equal. lia.
Qed.

Lemma store_lookup_other (h : heap) (dst : slice) (bs : list byte) (a : addr) :
  (forall st, ptr dst <> Some (a, st)) -> store h dst bs !! a = h !! a.
Proof.
  intros Hne. unfold store.
  destruct (ptr dst) as [[a' st]|]; [|done].
  destruct (h !! a') as [arr|] eqn:Ha; [|done].
  apply lookup_insert_ne. intros ->. by apply (Hne st).
Qed.

Lemma store_lookup_same (h : heap) (dst : slice) (bs : list byte)
    (a : addr) (st : nat) (arr : list byte) :
  ptr dst = Some (a, st) -> h !! a = Some arr ->
  store h dst bs !! a =
    Some (take st arr ++ take (Nat.min (slen dst) (length bs)) bs
            ++ drop (st + Nat.min (slen dst) (length bs)) arr).
Proof.
  intros Hp Ha. unfold store. rewrite Hp, Ha. apply lookup_insert_eq.
Qed.

(** Outside the destination slice, a store changes nothing. *)
Lemma store_frame (h : heap) (dst : slice) (bs : list byte) (a : addr) (j : nat) :
  valid h dst -> ~ covers dst a j ->
  byte_at (store h dst bs) a j = byte_at h a j.
Proof.
  intros [Hle Hp] Hout. unfold byte_at.
  destruct (ptr dst) as [[a' st]|] eqn:Hptr; cycle 1.
  { rewrite store_lookup_other; [done|]. intros st. by rewrite Hptr. }
  destruct (decide (a = a')) as [->|Hne]; cycle 1.
  { rewrite store_lookup_other; [done|]. intros st'. rewrite Hptr. congruence. }
  destruct Hp as (arr & Ha & Hb).
  rewrite (store_lookup_same h dst bs a' st arr) by done.
  rewrite Ha. simpl.
  set (n := Nat.min (slen dst) (length bs)).
  assert (Hj : (j < st \/ st + slen dst <= j)%nat).
  { destruct (decide (st <= j < st + slen dst)%nat) as [Hin|Hnin]; [|lia].
    exfalso. apply Hout. exists st. by split. }
  destruct Hj as [Hj|Hj].
  - rewrite lookup_app_l by (rewrite length_take; lia).
    by rewrite lookup_take_lt.
  - rewrite lookup_app_r by (rewrite length_take; lia).
    rewrite length_take.
    rewrite lookup_app_r by (rewrite length_take; lia).
    rewrite length_take, lookup_drop. f_equal. lia.
Qed.

(** A store keeps the size of every backing array. *)
Lemma store_length (h : heap) (dst : slice) (bs : list byte)
    (a : addr) (arr : list byte) :
  valid h dst -> h !! a = Some arr ->
  exists arr', store h dst bs !! a = Some arr' /\ length arr' = length arr.
Proof.
  intros [Hle Hp] Ha.
  destruct (ptr dst) as [[a' st]|] eqn:Hptr; cycle 1.
  { exists arr. rewrite store_lookup_other; [done|]. intros st. by rewrite Hptr. }
  destruct (decide (a = a')) as [->|Hne]; cycle 1.
  { exists arr. rewrite store_lookup_other; [done|].
    intros st'. rewrite Hptr. congruence. }
  destruct Hp as (arr0 & Ha0 & Hb). rewrite Ha in Ha0. injection Ha0 as <-.
  eexists. split; [by apply store_lookup_same|].
  rewrite !length_app, !length_take, length_drop. lia.
Qed.

Lemma store_valid (h : heap) (dst s : slice) (bs : list byte) :
  valid h dst -> valid h s -> valid (store h dst bs) s.
Proof.
  intros Hd [Hle Hp]. split; [done|].
  destruct (ptr s) as [[a st]|]; [|done].
  destruct Hp as (arr & Ha & Hb).
  destruct (store_length h dst bs a arr Hd Ha) as (arr' & Ha' & Hlen).
  exists arr'. split; [done|]. lia.
Qed.

(** Reading back what was stored. *)
Lemma load_store_same (h : heap) (dst : slice) (bs : list byte) :
  valid h dst -> (slen dst <= length bs)%nat ->
  load (store h dst bs) dst = take (slen dst) bs.
Proof.
  intros [Hle Hp] Hbs. unfold load.
  destruct (ptr dst) as [[a st]|] eqn:Hptr.
  - destruct Hp as (arr & Ha & Hb).
    rewrite (store_lookup_same h dst bs a st arr) by done.
    replace (Nat.min (slen dst) (length bs)) with (slen dst) by lia.
    rewrite drop_app_length' by (rewrite length_take; lia).
    rewrite take_app_length'; [done|]. rewrite length_take. lia.
  - assert (slen dst = 0%nat) as -> by lia. done.
Qed.

Lemma load_store_separate (h : heap) (dst s : slice) (bs : list byte) :
  separate s dst -> load (store h dst bs) s = load h s.
Proof.
  unfold separate, load. intros Hsep.
  destruct (ptr s) as [[a st]|]; [|done].
  rewrite store_lookup_other; [done|].
  intros st' Hp. rewrite Hp in Hsep. done.
Qed.

(** ** The index test comes first *)

Section RangeCheck.

Context {K : Type} (os : OS K).
Variables (index : Z) (w : World K).
Hypothesis Hout : index < 0 \/ RecordCount <= index.

Lemma ReaderAt_read_out_of_range (r : ReaderAtReader.t) (buf : slice) :
  ReaderAtReader.ReadRecord os r index buf w =
    (Err (ErrIndexOutOfRange index RecordCount), w).
Proof.
  unfold ReaderAtReader.ReadRecord.
  by rewrite (proj2 (out_of_range_true index) Hout).
Qed.

Lemma WriterAt_write_out_of_range (wr : WriterAtWriter.t) (data : slice) :
  WriterAtWriter.WriteRecord os wr index data w =
    (Err (ErrIndexOutOfRange index RecordCount), w).
Proof.
  unfold WriterAtWriter.WriteRecord.
  by rewrite (proj2 (out_of_range_true index) Hout).
Qed.

Lemma Mmap_read_out_of_range (m : MmapReader.t) (buf : slice) :
  MmapReader.ReadRecord m index buf w =
    (Err (ErrIndexOutOfRange index RecordCount), w).
Proof.
  unfold MmapReader.ReadRecord.
  by rewrite (proj2 (out_of_range_true index) Hout).
Qed.

Lemma Mmap_write_out_of_range (m : MmapWriter.t) (data : slice) :
  MmapWriter.WriteRecord m index data w =
    (Err (ErrIndexOutOfRange index RecordCount), w).
Proof.
  unfold MmapWriter.WriteRecord.
  by rewrite (proj2 (out_of_range_true index) Hout).
Qed.

End RangeCheck.

(** ** The positional path on a file system that behaves *)

Lemma posix_ReadAt_full (h : positive) (content : list byte) (p : slice)
    (off : Z) (w : World files) :
  kern w !! h = Some content ->
  0 <= off -> off + len p <= Z.of_nat (length content) ->
  File_ReadAt posix (Some h) p off w =
    ((len p, None),
     mkWorld (store (mem w) p (take (slen p) (drop (Z.to_nat off) content)))
             (kern w) (trace w ++ [EvReadAt (Some h) p off])).
Proof.
  intros Hk H0 Hfit. unfold File_ReadAt, len in *. simpl. unfold posix_pread.
  rewrite Hk.
  replace (off <? 0) with false by (symmetry; apply Z.ltb_ge; lia).
  assert (Hlen : length (take (slen p) (drop (Z.to_nat off) content)) = slen p).
  { rewrite length_take, length_drop. lia. }
  rewrite Hlen.
  replace (slen p <? slen p)%nat with false by (symmetry; apply Nat.ltb_ge; lia).
  done.
Qed.

Lemma posix_ReadRecord_ok (r : ReaderAtReader.t) (h : positive)
    (content : list byte) (index : Z) (buf : slice) (w : World files) :
  ReaderAtReader.file r = Some h ->
  kern w !! h = Some content ->
  valid (mem w) buf -> RecordSize <= len buf ->
  0 <= index < RecordCount ->
  index * RecordSize + RecordSize <= Z.of_nat (length content) ->
  exists p,
    reslice buf 0 RecordSize = Some p /\
    ReaderAtReader.ReadRecord posix r index buf w =
      (Ok p,
       mkWorld (store (mem w) p
                  (take (Z.to_nat RecordSize)
                     (drop (Z.to_nat (index * RecordSize)) content)))
               (kern w)
               (trace w ++ [EvReadAt (Some h) p (index * RecordSize)])).
Proof.
  intros Hf Hk Hv Hbuf Hi Hfit.
  pose proof (valid_len_cap _ _ Hv) as Hcap.
  eexists. split; [apply reslice_Some; unfold RecordSize in *; lia|].
  unfold ReaderAtReader.ReadRecord.
  rewrite (proj2 (out_of_range_false index) Hi).
  replace (len buf <? RecordSize) with false by (symmetry; apply Z.ltb_ge; lia).
  rewrite offset_exact by done.
  rewrite reslice_Some by (unfold RecordSize in *; lia).
  rewrite Hf.
  rewrite (posix_ReadAt_full h content) by
    (try done; unfold len, RecordSize in *; simpl; lia).
  unfold len. simpl slen.
  replace (Z.of_nat (Z.to_nat (RecordSize - 0)) =? RecordSize) with true
    by (symmetry; apply Z.eqb_eq; unfold RecordSize; lia).
  simpl negb. cbv iota. done.
Qed.

Lemma posix_WriteRecord_ok (wr : WriterAtWriter.t) (h : positive)
    (content : list byte) (index : Z) (data : slice) (w : World files) :
  WriterAtWriter.file wr = Some h ->
  kern w !! h = Some content ->
  valid (mem w) data -> len data = RecordSize ->
  0 <= index < RecordCount ->
  exists k',
    WriterAtWriter.WriteRecord posix wr index data w =
      (Ok tt,
       mkWorld (mem w) k'
               (trace w ++ [EvWriteAt (Some h) (load (mem w) data)
                                      (index * RecordSize)])).
Proof.
  intros Hf Hk Hv Hlen Hi.
  unfold WriterAtWriter.WriteRecord.
  rewrite (proj2 (out_of_range_false index) Hi).
  rewrite Hlen, Z.eqb_refl. simpl negb. cbv iota.
  rewrite offset_exact by done.
  unfold File_WriteAt. rewrite Hf. simpl pwrite. unfold posix_pwrite.
  rewrite Hk.
  replace (index * RecordSize <? 0) with false
    by (symmetry; apply Z.ltb_ge; unfold RecordSize; lia).
  rewrite (load_length _ _ Hv). fold (len data). rewrite Hlen, Z.eqb_refl.
  simpl negb. cbv iota. eexists. reflexivity.
Qed.

(** ** The mapped path *)

Lemma Mmap_ReadRecord_ok {K : Type} (m : MmapReader.t) (index : Z)
    (buf : slice) (w : World K) :
  valid (mem w) (MmapReader.data m) ->
  0 <= index < RecordCount ->
  index * RecordSize + RecordSize <= len (MmapReader.data m) ->
  exists v,
    reslice (MmapReader.data m) (index * RecordSize)
            (index * RecordSize + RecordSize) = Some v /\
    MmapReader.ReadRecord m index buf w = (Ok v, w).
Proof.
  intros Hv Hi Hfit. pose proof (valid_len_cap _ _ Hv) as Hcap.
  eexists. split; [apply reslice_Some; unfold RecordSize in *; lia|].
  unfold MmapReader.ReadRecord.
  rewrite (proj2 (out_of_range_false index) Hi).
  rewrite offset_end_exact, offset_exact by done.
  replace (index * RecordSize + RecordSize >? len (MmapReader.data m)) with false
    by (symmetry; rewrite Z.gtb_ltb; apply Z.ltb_ge; lia).
  by rewrite reslice_Some by (unfold RecordSize in *; lia).
Qed.

Lemma Mmap_ReadRecord_bounds {K : Type} (m : MmapReader.t) (index : Z)
    (buf : slice) (w : World K) :
  0 <= index < RecordCount ->
  index * RecordSize + RecordSize > len (MmapReader.data m) ->
  MmapReader.ReadRecord m index buf w = (Err (ErrExceedsBounds index), w).
Proof.
  intros Hi Hfit. unfold MmapReader.ReadRecord.
  rewrite (proj2 (out_of_range_false index) Hi).
  rewrite offset_end_exact, offset_exact by done.
  by replace (index * RecordSize + RecordSize >? len (MmapReader.data m)) with true
    by (symmetry; rewrite Z.gtb_ltb; apply Z.ltb_lt; lia).
Qed.

Lemma Mmap_WriteRecord_ok {K : Type} (m : MmapWriter.t) (index : Z)
    (payload : slice) (w : World K) :
  valid (mem w) (MmapWriter.data m) ->
  0 <= index < RecordCount ->
  len payload = RecordSize ->
  index * RecordSize + RecordSize <= len (MmapWriter.data m) ->
  exists dst,
    reslice (MmapWriter.data m) (index * RecordSize)
            (index * RecordSize + RecordSize) = Some dst /\
    MmapWriter.WriteRecord m index payload w =
      (Ok tt, mkWorld (copy dst payload (mem w)) (kern w) (trace w)).
Proof.
  intros Hv Hi Hlen Hfit. pose proof (valid_len_cap _ _ Hv) as Hcap.
  eexists. split; [apply reslice_Some; unfold RecordSize in *; lia|].
  unfold MmapWriter.WriteRecord.
  rewrite (proj2 (out_of_range_false index) Hi).
  rewrite Hlen, Z.eqb_refl. simpl negb. cbv iota.
  rewrite offset_end_exact, offset_exact by done.
  replace (index * RecordSize + RecordSize >? len (MmapWriter.data m)) with false
    by (symmetry; rewrite Z.gtb_ltb; apply Z.ltb_ge; lia).
  by rewrite reslice_Some by (unfold RecordSize in *; lia).
Qed.

(** The destination of a record write covers exactly the record's cells. *)
Lemma covers_record_cell (d dst : slice) (index : Z) (a : addr) (j : nat) :
  0 <= index ->
  reslice d (index * RecordSize) (index * RecordSize + RecordSize) = Some dst ->
  covers dst a j <-> record_cell d index a j.
Proof.
  intros Hi. unfold reslice.
  destruct (_ && _) eqn:Hb; [|done]. intros [= <-].
  unfold covers, record_cell. simpl.
  destruct (ptr d) as [[a' st']|]; simpl.
  - split.
    + intros (st & [= <- <-] & Hj). exists st'. split; [done|].
      unfold RecordSize in *. lia.
    + intros (st & [= <- <-] & Hj). eexists. split; [done|].
      unfold RecordSize in *. lia.
  - split; intros (st & Hp & _); done.
Qed.

(** ** Page warming *)

Lemma pages_from_seq (n : nat) (i : Z) :
  pages_from n i =
    map (fun k => i + Z.of_nat k * MmapWriter.pageSize) (seq 0 n).
Proof.
  revert i. induction n as [|n IH]; intros i; [done|].
  simpl pages_from. rewrite IH. simpl seq. simpl map.
  f_equal; [lia|].
  rewrite <- seq_shift, map_map.
  apply map_ext. intros k. unfold MmapWriter.pageSize. lia.
Qed.

Lemma page_offsets_from (n : Z) :
  page_offsets n =
    pages_from (Z.to_nat ((n + MmapWriter.pageSize - 1) / MmapWriter.pageSize)) 0.
Proof. unfold page_offsets. by rewrite pages_from_seq. Qed.

(** The offsets touched are exactly the page boundaries inside the mapping. *)
Lemma page_offsets_spec (n i : Z) :
  0 <= n ->
  In i (page_offsets n) <->
  0 <= i < n /\ i mod MmapWriter.pageSize = 0.
Proof.
  intros Hn. unfold page_offsets, MmapWriter.pageSize. rewrite in_map_iff. split.
  - intros (k & <- & Hk). apply in_seq in Hk.
    assert (Z.of_nat k < (n + 4096 - 1) / 4096) by lia.
    split; [|by rewrite Z.mod_mul]. 
    assert (Z.of_nat k * 4096 + 4096 <= 4096 * ((n + 4096 - 1) / 4096)) by lia.
    pose proof (Z.mul_div_le (n + 4096 - 1) 4096). lia.
  - intros [Hi Hm]. exists (Z.to_nat (i / 4096)).
    assert (Hdiv : i = 4096 * (i / 4096)).
    { pose proof (Z.div_mod i 4096). lia. }
    split; [lia|]. apply in_seq.
    assert (i / 4096 < (n + 4096 - 1) / 4096); [|lia].
    apply Z.div_lt_upper_bound; [lia|].
    pose proof (Z.mod_pos_bound (n + 4096 - 1) 4096).
    pose proof (Z.div_mod (n + 4096 - 1) 4096). lia.
Qed.

Lemma page_offsets_NoDup (n : Z) : NoDup (page_offsets n).
Proof.
  unfold page_offsets. apply NoDup_fmap_2; [|apply NoDup_seq].
  intros a b. unfold MmapWriter.pageSize. lia.
Qed.

(** With fuel for the pages left, the loop runs to its exit test: it
    touches those pages and nothing else. *)
Lemma warm_loop_run {K : Type} (d : slice) :
  len d + MmapWriter.pageSize <= GoInt.max_int ->
  forall (n fuel : nat) (i : Z) (w : World K),
    0 <= i -> pages_left d i = n -> (n <= fuel)%nat ->
    MmapWriter.warm_loop fuel d i w =
      Some (Ok tt,
            mkWorld (mem w) (kern w)
                    (trace w ++ map (EvTouch d) (pages_from n i))).
Proof.
  intros Hmax. unfold pages_left, MmapWriter.pageSize in *.
  induction n as [|n IH]; intros fuel i w Hi Hleft Hfuel.
  - assert (Hexit : len d <= i).
    { destruct (Z_lt_le_dec i (len d)) as [Hlt|]; [|done].
      assert (1 <= (len d - i + 4096 - 1) / 4096); [|lia].
      apply Z.div_le_lower_bound; lia. }
    destruct fuel; simpl;
      (replace (i <? len d) with false by (symmetry; apply Z.ltb_ge; lia));
      destruct w; simpl; by rewrite app_nil_r.
  - assert (Hlt : i < len d).
    { destruct (Z_lt_le_dec i (len d)) as [|Hge]; [done|].
      assert ((len d - i + 4096 - 1) / 4096 <= 0); [|lia].
      apply Z.lt_succ_r, Z.div_lt_upper_bound; lia. }
    destruct fuel as [|fuel]; [lia|]. simpl.
    replace (i <? len d) with true by (symmetry; apply Z.ltb_lt; lia).
    unfold touch.
    replace ((0 <=? i) && (i <? len d)) with true
      by (symmetry; apply andb_true_iff; lia).
    assert (Hadd : GoInt.add i MmapWriter.pageSize = i + 4096).
    { unfold GoInt.add. apply wrap_id.
      unfold GoInt.in_range, GoInt.min_int, GoInt.max_int, MmapWriter.pageSize in *.
      lia. }
    rewrite Hadd, (IH fuel (i + 4096)); try lia.
    + simpl. by rewrite <- app_assoc.
    + replace (len d - (i + 4096) + 4096 - 1) with
        (len d - i + 4096 - 1 + (-1) * 4096) by lia.
      rewrite Z.div_add by lia. lia.
Qed.

Lemma WarmPages_run {K : Type} (m : MmapWriter.t) (w : World K) :
  valid (mem w) (MmapWriter.data m) ->
  len (MmapWriter.data m) + MmapWriter.pageSize <= GoInt.max_int ->
  MmapWriter.WarmPages m w =
    Some (Ok tt,
          mkWorld (mem w) (kern w)
                  (trace w ++ map (EvTouch (MmapWriter.data m))
                                  (page_offsets (len (MmapWriter.data m))))).
Proof.
  intros [Hle Hp] Hmax. unfold MmapWriter.WarmPages, is_nil.
  rewrite page_offsets_from.
  destruct (ptr (MmapWriter.data m)) as [[a st]|] eqn:Hptr.
  - apply warm_loop_run; try done.
    + unfold pages_left. f_equal. f_equal. lia.
    + unfold MmapWriter.pageSize, len.
      assert ((Z.of_nat (slen (MmapWriter.data m)) + 4096 - 1) / 4096
              <= Z.of_nat (slen (MmapWriter.data m)) / 4096 + 1); [|lia].
      replace (Z.of_nat (slen (MmapWriter.data m)) + 4096 - 1) with
        (Z.of_nat (slen (MmapWriter.data m)) - 1 + 1 * 4096) by lia.
      rewrite Z.div_add by lia.
      assert ((Z.of_nat (slen (MmapWriter.data m)) - 1) / 4096
              <= Z.of_nat (slen (MmapWriter.data m)) / 4096); [|lia].
      apply Z.div_le_mono; lia.
  - assert (Hlen : len (MmapWriter.data m) = 0) by (unfold len; lia).
    rewrite Hlen. simpl. destruct w; simpl. by rewrite app_nil_r.
Qed.

Lemma reslice_separate (s p d : slice) (lo hi : Z) :
  reslice s lo hi = Some p -> separate d s -> separate d p.
Proof.
  unfold reslice. destruct (_ && _); [|done]. intros [= <-].
  unfold separate. simpl.
  destruct (ptr d) as [[a1 s1]|]; [|done].
  by destruct (ptr s) as [[a2 s2]|].
Qed.

(** ** The 100,000,000-byte file *)

Lemma full_size_eq : Z.of_nat full_size = RecordSize * RecordCount.
Proof. unfold full_size. apply Z2Nat.id. unfold RecordSize, RecordCount. lia. Qed.

Lemma full_file_length : Z.of_nat (length full_file) = RecordSize * RecordCount.
Proof. unfold full_file. rewrite length_replicate. apply full_size_eq. Qed.

Lemma full_mapping_valid : valid (mem full_world) full_mapping.
Proof.
  split; [apply Nat.le_refl|].
  exists full_file. split.
  - apply lookup_insert_eq.
  - unfold full_file. rewrite length_replicate. apply Nat.le_refl.
Qed.

Lemma full_mapping_load : load (mem full_world) full_mapping = full_file.
Proof.
  unfold load. cbv [full_mapping ptr slen].
  change (mem full_world) with full_heap. unfold full_heap.
  rewrite lookup_insert_eq, drop_0.
  apply take_ge. unfold full_file. by rewrite length_replicate.
Qed.

Lemma full_buf_valid : valid (mem full_world) full_buf.
Proof.
  split; [cbv [full_buf slen scap]; lia|].
  exists (replicate 128 x00). split.
  - change (mem full_world) with full_heap. unfold full_heap.
    rewrite lookup_insert_ne by discriminate. apply lookup_insert_eq.
  - rewrite length_replicate. cbv [full_buf scap]. lia.
Qed.

(** ** The accessors on small inputs *)

Example demo_mapping_valid : valid demo_heap demo_mapping.
Proof. valid_here. Qed.

Example read_record_2 :
  MmapReader.ReadRecord demo_mreader 2 nil_slice demo_world =
    (Ok (Slice (Some (1%positive, 200%nat)) 100 100), demo_world).
Proof. reflexivity. Qed.

Example read_record_3_exceeds :
  MmapReader.ReadRecord demo_mreader 3 nil_slice demo_world =
    (Err (ErrExceedsBounds 3), demo_world).
Proof. reflexivity. Qed.

Example positional_read_record_1 :
  (ReaderAtReader.ReadRecord posix demo_reader 1 demo_buf demo_world).1 =
    Ok (Slice (Some (2%positive, 0%nat)) 100 128) /\
  load (mem (ReaderAtReader.ReadRecord posix demo_reader 1 demo_buf demo_world).2)
       (Slice (Some (2%positive, 0%nat)) 100 128) = replicate 100 x02.
Proof. split; vm_compute; reflexivity. Qed.

Example positional_read_past_end :
  (ReaderAtReader.ReadRecord posix demo_reader 3 demo_buf demo_world).1 =
    Err (ErrPartialRead 100 0).
Proof. reflexivity. Qed.

Example warm_three_pages :
  (fun r => match r with
            | Some (Ok tt, w) => trace w
            | _ => []
            end) (MmapWriter.WarmPages demo_pager demo_world) =
    [EvTouch demo_pages 0; EvTouch demo_pages 4096; EvTouch demo_pages 8192].
Proof. vm_compute. reflexivity. Qed.

(** * The properties of the specification, C1 to C10 *)

(** C1. On a file system that behaves, for a file and a mapping of that
    file, every valid index whose record the file holds (every valid index,
    when the file has its [RecordSize * RecordCount] bytes) is read with
    success by both accessors, [ReaderAtReader.ReadRecord] into a buffer of
    length at least [RecordSize] and [MmapReader.ReadRecord] with a nil
    buffer, and the two slices returned have length [RecordSize] and denote
    the same bytes: bytes [index * RecordSize] and following of the file. *)
Theorem readers_agree (r : ReaderAtReader.t) (m : MmapReader.t) (h : positive)
    (content : list byte) (index : Z) (buf : slice) (w : World files) :
  ReaderAtReader.file r = Some h ->
  kern w !! h = Some content ->
  valid (mem w) (MmapReader.data m) ->
  load (mem w) (MmapReader.data m) = content ->
  valid (mem w) buf ->
  separate (MmapReader.data m) buf ->
  RecordSize <= len buf ->
  0 <= index < RecordCount ->
  index * RecordSize + RecordSize <= Z.of_nat (length content) ->
  exists (s1 s2 : slice) (w1 : World files),
    ReaderAtReader.ReadRecord posix r index buf w = (Ok s1, w1) /\
    MmapReader.ReadRecord m index nil_slice w = (Ok s2, w) /\
    MmapReader.ReadRecord m index nil_slice w1 = (Ok s2, w1) /\
    len s1 = RecordSize /\ len s2 = RecordSize /\
    load (mem w1) s1 = load (mem w1) s2 /\
    load (mem w1) s1 =
      take (Z.to_nat RecordSize) (drop (Z.to_nat (index * RecordSize)) content).
Proof.
  intros Hf Hk Hvm Hmap Hvb Hsep Hbuf Hi Hfit.
  destruct (posix_ReadRecord_ok r h content index buf w) as (p & Hp & Hread);
    try done.
  assert (Hfitm : index * RecordSize + RecordSize <= len (MmapReader.data m)).
  { unfold len. rewrite <- (load_length (mem w)), Hmap by done. done. }
  destruct (Mmap_ReadRecord_ok m index nil_slice w) as (v & Hv & Hmread);
    try done.
  pose proof (reslice_valid _ _ _ _ _ Hvb Hp) as Hvp.
  pose proof (reslice_len _ _ _ _ Hp) as Hlp.
  pose proof (reslice_len _ _ _ _ Hv) as Hlv.
  set (bs := take (Z.to_nat RecordSize)
               (drop (Z.to_nat (index * RecordSize)) content)) in *.
  set (w1 := mkWorld (store (mem w) p bs) (kern w)
               (trace w ++ [EvReadAt (Some h) p (index * RecordSize)])) in *.
  assert (Hbs : length bs = Z.to_nat RecordSize).
  { unfold bs. rewrite length_take, length_drop. unfold RecordSize in *. lia. }
  assert (Hs1 : load (mem w1) p = bs).
  { simpl. rewrite load_store_same by (try done; unfold len in Hlp; lia).
    apply take_ge. unfold len in Hlp. lia. }
  exists p, v, w1.
  split; [exact Hread|]. split; [exact Hmread|].
  split; [|split; [lia|split; [lia|split; [|exact Hs1]]]].
  - destruct (Mmap_ReadRecord_ok m index nil_slice w1) as (v' & Hv' & Hm');
      try done.
    + by apply store_valid.
    + rewrite Hv in Hv'. by injection Hv' as <-.
  - rewrite Hs1, (load_reslice (mem w1) _ _ _ _ Hv) by done.
    simpl. rewrite load_store_separate by (by eapply reslice_separate).
    rewrite Hmap. unfold bs. f_equal. lia.
Qed.

(** Record 500000 of the 100,000,000-byte file, read both ways. *)
Lemma readers_agree_witness :
  exists (s1 s2 : slice) (w1 : World files),
    ReaderAtReader.ReadRecord posix demo_reader 500000 full_buf full_world
      = (Ok s1, w1) /\
    MmapReader.ReadRecord full_mreader 500000 nil_slice full_world
      = (Ok s2, full_world) /\
    MmapReader.ReadRecord full_mreader 500000 nil_slice w1 = (Ok s2, w1) /\
    len s1 = RecordSize /\ len s2 = RecordSize /\
    load (mem w1) s1 = load (mem w1) s2 /\
    load (mem w1) s1 =
      take (Z.to_nat RecordSize)
        (drop (Z.to_nat (500000 * RecordSize)) full_file).
Proof.
  apply (readers_agree demo_reader full_mreader 7%positive full_file 500000
           full_buf full_world).
  - reflexivity.
  - apply lookup_insert_eq.
  - apply full_mapping_valid.
  - apply full_mapping_load.
  - apply full_buf_valid.
  - cbv [separate MmapReader.data full_mreader full_mapping full_buf ptr].
    discriminate.
  - cbv [full_buf len slen RecordSize]. lia.
  - unfold RecordCount. lia.
  - rewrite full_file_length. unfold RecordSize, RecordCount. lia.
Defined.

(** C2. An index outside [0, RecordCount) makes [ReadRecord] and
    [WriteRecord] of both accessor families return the out-of-range error
    carrying the index as given, in the world as it was: no call was made,
    no memory touched, whatever the environment, the buffers and the state
    of the files.  On a file system that behaves, with a file and mappings
    of [RecordSize * RecordCount] bytes, a buffer of at least [RecordSize]
    bytes and a payload of [RecordSize] bytes, every valid index (so 0, 1
    and [RecordCount - 1]) succeeds in all four operations. *)
Theorem index_range_enforced :
  (forall (K : Type) (os : OS K) (r : ReaderAtReader.t) (wr : WriterAtWriter.t)
          (mr : MmapReader.t) (mw : MmapWriter.t) (index : Z)
          (buf data : slice) (w : World K),
      index < 0 \/ RecordCount <= index ->
      ReaderAtReader.ReadRecord os r index buf w =
        (Err (ErrIndexOutOfRange index RecordCount), w) /\
      MmapReader.ReadRecord mr index buf w =
        (Err (ErrIndexOutOfRange index RecordCount), w) /\
      WriterAtWriter.WriteRecord os wr index data w =
        (Err (ErrIndexOutOfRange index RecordCount), w) /\
      MmapWriter.WriteRecord mw index data w =
        (Err (ErrIndexOutOfRange index RecordCount), w)) /\
  (forall (r : ReaderAtReader.t) (wr : WriterAtWriter.t)
          (mr : MmapReader.t) (mw : MmapWriter.t) (h : positive)
          (content : list byte) (index : Z) (buf data : slice)
          (w : World files),
      Z.of_nat (length content) = RecordSize * RecordCount ->
      ReaderAtReader.file r = Some h ->
      WriterAtWriter.file wr = Some h ->
      kern w !! h = Some content ->
      valid (mem w) (MmapReader.data mr) ->
      len (MmapReader.data mr) = RecordSize * RecordCount ->
      valid (mem w) (MmapWriter.data mw) ->
      len (MmapWriter.data mw) = RecordSize * RecordCount ->
      valid (mem w) buf -> RecordSize <= len buf ->
      valid (mem w) data -> len data = RecordSize ->
      0 <= index < RecordCount ->
      (exists s w1, ReaderAtReader.ReadRecord posix r index buf w = (Ok s, w1)) /\
      (exists s, MmapReader.ReadRecord mr index buf w = (Ok s, w)) /\
      (exists w1, WriterAtWriter.WriteRecord posix wr index data w = (Ok tt, w1)) /\
      (exists w1, MmapWriter.WriteRecord mw index data w = (Ok tt, w1))).
Proof.
  split.
  - intros K os r wr mr mw index buf data w Hout.
    repeat split.
    + by apply ReaderAt_read_out_of_range.
    + by apply Mmap_read_out_of_range.
    + by apply WriterAt_write_out_of_range.
    + by apply Mmap_write_out_of_range.
  - intros r wr mr mw h content index buf data w
      Hsize Hr Hwr Hk Hvr Hlr Hvw Hlw Hvb Hbuf Hvd Hld Hi.
    pose proof (sized_file_covers _ index eq_refl Hi) as Hfit.
    repeat split.
    + destruct (posix_ReadRecord_ok r h content index buf w) as (p & _ & Hread);
        try done; [lia|]. eauto.
    + destruct (Mmap_ReadRecord_ok mr index buf w) as (v & _ & Hread);
        try done; [lia|]. eauto.
    + destruct (posix_WriteRecord_ok wr h content index data w) as (k' & Hwrite);
        try done. eauto.
    + destruct (Mmap_WriteRecord_ok mw index data w) as (dst & _ & Hwrite);
        try done; [lia|]. eauto.
Qed.

(** Indices -1 and [RecordCount] are refused, and the last record,
    [RecordCount - 1], is read and written with success by all four
    operations on the 100,000,000-byte file. *)
Lemma index_range_enforced_witness :
  (ReaderAtReader.ReadRecord posix demo_reader (-1) full_buf full_world =
     (Err (ErrIndexOutOfRange (-1) RecordCount), full_world) /\
   MmapReader.ReadRecord full_mreader (-1) full_buf full_world =
     (Err (ErrIndexOutOfRange (-1) RecordCount), full_world) /\
   WriterAtWriter.WriteRecord posix demo_writer RecordCount full_buf full_world =
     (Err (ErrIndexOutOfRange RecordCount RecordCount), full_world) /\
   MmapWriter.WriteRecord full_mwriter RecordCount full_buf full_world =
     (Err (ErrIndexOutOfRange RecordCount RecordCount), full_world)) /\
  ((exists s w1,
      ReaderAtReader.ReadRecord posix demo_reader (RecordCount - 1)
        full_buf full_world = (Ok s, w1)) /\
   (exists s,
      MmapReader.ReadRecord full_mreader (RecordCount - 1)
        full_buf full_world = (Ok s, full_world)) /\
   (exists w1,
      WriterAtWriter.WriteRecord posix demo_writer (RecordCount - 1)
        full_buf full_world = (Ok tt, w1)) /\
   (exists w1,
      MmapWriter.WriteRecord full_mwriter (RecordCount - 1)
        full_buf full_world = (Ok tt, w1))).
Proof.
  destruct index_range_enforced as [Hrefused Haccepted].
  split.
  - destruct (Hrefused files posix demo_reader demo_writer full_mreader
                full_mwriter (-1) full_buf full_buf full_world)
      as (H1 & H2 & _ & _); [left; lia|].
    destruct (Hrefused files posix demo_reader demo_writer full_mreader
                full_mwriter RecordCount full_buf full_buf full_world)
      as (_ & _ & H3 & H4); [right; lia|].
    by repeat split.
  - apply (Haccepted demo_reader demo_writer full_mreader full_mwriter
             7%positive full_file (RecordCount - 1) full_buf full_buf full_world).
    + apply full_file_length.
    + reflexivity.
    + reflexivity.
    + apply lookup_insert_eq.
    + apply full_mapping_valid.
    + apply full_size_eq.
    + apply full_mapping_valid.
    + apply full_size_eq.
    + apply full_buf_valid.
    + cbv [full_buf len slen RecordSize]. lia.
    + apply full_buf_valid.
    + reflexivity.
    + unfold RecordCount. lia.
Defined.


(** C3 (as the code has it).  For every valid index,
    [ReaderAtReader.ReadRecord] returns the buffer-too-small error exactly
    when the LENGTH of the buffer, [len(buf)], is less than [RecordSize];
    nothing is read in that case.  Otherwise, for a well-formed buffer of
    any length from [RecordSize] up, it goes on to the positional read of
    [buf[:RecordSize]] at [index * RecordSize]: the world it returns is the
    one that read leaves. *)
Theorem buffer_length_checked {K : Type} (os : OS K) (r : ReaderAtReader.t)
    (index : Z) (buf : slice) (w : World K) :
  0 <= index < RecordCount ->
  valid (mem w) buf ->
  ((exists need got,
      (ReaderAtReader.ReadRecord os r index buf w).1
        = Err (ErrBufferTooSmall need got))
   <-> len buf < RecordSize) /\
  (len buf < RecordSize ->
     ReaderAtReader.ReadRecord os r index buf w =
       (Err (ErrBufferTooSmall RecordSize (len buf)), w)) /\
  (RecordSize <= len buf ->
     exists p,
       reslice buf 0 RecordSize = Some p /\
       (ReaderAtReader.ReadRecord os r index buf w).2 =
         (File_ReadAt os (ReaderAtReader.file r) p (index * RecordSize) w).2 /\
       trace (ReaderAtReader.ReadRecord os r index buf w).2 =
         trace w ++ [EvReadAt (ReaderAtReader.file r) p (index * RecordSize)]).
Proof.
  intros Hi Hv. pose proof (valid_len_cap _ _ Hv) as Hcap.
  assert (Hsmall : len buf < RecordSize ->
     ReaderAtReader.ReadRecord os r index buf w =
       (Err (ErrBufferTooSmall RecordSize (len buf)), w)).
  { intros Hlt. unfold ReaderAtReader.ReadRecord.
    rewrite (proj2 (out_of_range_false index) Hi).
    by replace (len buf <? RecordSize) with true
      by (symmetry; apply Z.ltb_lt; lia). }
  assert (Hbig : RecordSize <= len buf ->
     exists p, reslice buf 0 RecordSize = Some p /\
       ReaderAtReader.ReadRecord os r index buf w =
         let '((n, err), w1) :=
           File_ReadAt os (ReaderAtReader.file r) p (index * RecordSize) w in
         match err with
         | Some (Errno c) => (Err (ErrReadAt (index * RecordSize) (Errno c)), w1)
         | _ => if negb (n =? RecordSize)
                then (Err (ErrPartialRead RecordSize n), w1)
                else (Ok p, w1)
         end).
  { intros Hge. eexists. split; [apply reslice_Some; unfold RecordSize in *; lia|].
    unfold ReaderAtReader.ReadRecord.
    rewrite (proj2 (out_of_range_false index) Hi).
    replace (len buf <? RecordSize) with false by (symmetry; apply Z.ltb_ge; lia).
    rewrite offset_exact by done.
    by rewrite reslice_Some by (unfold RecordSize in *; lia). }
  split; [|split; [exact Hsmall|]].
  - split.
    + intros (need & got & Herr).
      destruct (Z_lt_le_dec (len buf) RecordSize) as [|Hge]; [done|].
      destruct (Hbig Hge) as (p & _ & Hrun). rewrite Hrun in Herr.
      destruct (File_ReadAt os (ReaderAtReader.file r) p (index * RecordSize) w)
        as [[n err] w1].
      destruct err as [[|c]|]; try done;
        destruct (negb (n =? RecordSize)); done.
    + intros Hlt. exists RecordSize, (len buf). by rewrite Hsmall.
  - intros Hge. destruct (Hbig Hge) as (p & Hp & Hrun).
    exists p. split; [done|]. rewrite Hrun.
    unfold File_ReadAt.
    destruct (pread os (ReaderAtReader.file r) (slen p) (index * RecordSize) (kern w))
      as [[[bs n] err] k].
    destruct err as [[|c]|]; simpl; try done;
      destruct (negb (n =? RecordSize)); done.
Qed.

(** The length test with a buffer longer than a record (128 bytes). *)
Lemma buffer_length_checked_witness :
  ((exists need got,
      (ReaderAtReader.ReadRecord posix demo_reader 1 demo_buf demo_world).1
        = Err (ErrBufferTooSmall need got))
   <-> len demo_buf < RecordSize) /\
  (len demo_buf < RecordSize ->
     ReaderAtReader.ReadRecord posix demo_reader 1 demo_buf demo_world =
       (Err (ErrBufferTooSmall RecordSize (len demo_buf)), demo_world)) /\
  (RecordSize <= len demo_buf ->
     exists p,
       reslice demo_buf 0 RecordSize = Some p /\
       (ReaderAtReader.ReadRecord posix demo_reader 1 demo_buf demo_world).2 =
         (File_ReadAt posix (ReaderAtReader.file demo_reader) p
            (1 * RecordSize) demo_world).2 /\
       trace (ReaderAtReader.ReadRecord posix demo_reader 1 demo_buf demo_world).2 =
         trace demo_world ++
           [EvReadAt (ReaderAtReader.file demo_reader) p (1 * RecordSize)]).
Proof.
  apply (buffer_length_checked posix demo_reader 1 demo_buf demo_world).
  - geometry.
  - valid_here.
Defined.

(** C3 with "capacity" for "length" does not hold: [make([]byte, 0, 128)] has capacity
    for a record and is a well-formed slice, yet [ReadRecord] returns the
    buffer-too-small error for it, without reading. *)
Lemma capacity_is_not_tested :
  valid (mem demo_world) empty_buf /\
  RecordSize <= cap empty_buf /\
  ReaderAtReader.ReadRecord posix demo_reader 0 empty_buf demo_world =
    (Err (ErrBufferTooSmall 100 0), demo_world).
Proof.
  split; [valid_here|]. split; [geometry|]. reflexivity.
Qed.

(** C4. For every valid index, a payload whose length is not [RecordSize]
    makes [WriterAtWriter.WriteRecord] and [MmapWriter.WriteRecord] return
    the size-mismatch error in the world as it was (nothing written, no
    call made); and a call of either that changes the world at all had a
    payload of exactly [RecordSize] bytes. *)
Theorem payload_size_enforced {K : Type} (os : OS K) (wr : WriterAtWriter.t)
    (mw : MmapWriter.t) (index : Z) (data : slice) (w : World K) :
  0 <= index < RecordCount ->
  (len data <> RecordSize ->
     WriterAtWriter.WriteRecord os wr index data w =
       (Err (ErrSizeMismatch RecordSize (len data)), w) /\
     MmapWriter.WriteRecord mw index data w =
       (Err (ErrSizeMismatch RecordSize (len data)), w)) /\
  ((WriterAtWriter.WriteRecord os wr index data w).2 <> w ->
     len data = RecordSize) /\
  ((MmapWriter.WriteRecord mw index data w).2 <> w ->
     len data = RecordSize).
Proof.
  intros Hi.
  assert (Hbad : len data <> RecordSize ->
     WriterAtWriter.WriteRecord os wr index data w =
       (Err (ErrSizeMismatch RecordSize (len data)), w) /\
     MmapWriter.WriteRecord mw index data w =
       (Err (ErrSizeMismatch RecordSize (len data)), w)).
  { intros Hne.
    unfold WriterAtWriter.WriteRecord, MmapWriter.WriteRecord.
    rewrite (proj2 (out_of_range_false index) Hi).
    by replace (len data =? RecordSize) with false
      by (symmetry; apply Z.eqb_neq; lia). }
  split; [exact Hbad|].
  split; intros Hchg;
    (destruct (Z.eq_dec (len data) RecordSize) as [|Hne]; [done|]);
    destruct (Hbad Hne) as [H1 H2]; exfalso; apply Hchg.
  - by rewrite H1.
  - by rewrite H2.
Qed.

(** Payloads of [RecordSize - 1] and [RecordSize + 1] bytes. *)
Lemma payload_size_enforced_witness :
  (len short_payload = RecordSize - 1 /\
   WriterAtWriter.WriteRecord posix demo_writer 0 short_payload demo_world =
     (Err (ErrSizeMismatch RecordSize (len short_payload)), demo_world) /\
   MmapWriter.WriteRecord demo_mwriter 0 short_payload demo_world =
     (Err (ErrSizeMismatch RecordSize (len short_payload)), demo_world)) /\
  (len long_payload = RecordSize + 1 /\
   WriterAtWriter.WriteRecord posix demo_writer 0 long_payload demo_world =
     (Err (ErrSizeMismatch RecordSize (len long_payload)), demo_world) /\
   MmapWriter.WriteRecord demo_mwriter 0 long_payload demo_world =
     (Err (ErrSizeMismatch RecordSize (len long_payload)), demo_world)).
Proof.
  split; (split; [reflexivity|]).
  - apply (payload_size_enforced posix demo_writer demo_mwriter 0
             short_payload demo_world); geometry.
  - apply (payload_size_enforced posix demo_writer demo_mwriter 0
             long_payload demo_world); geometry.
Defined.

(** C5. For a valid index and a buffer that passed the length test, what
    [ReaderAtReader.ReadRecord] returns follows from what the positional
    read of [buf[:RecordSize]] reported: a count of [RecordSize] with no
    error or with [io.EOF] is a success returning [buf[:RecordSize]]; any
    other count with no error or with [io.EOF] is the partial-read error;
    an error other than [io.EOF] is handed on, wrapped with the offset,
    whatever the count. *)
Theorem read_result_classified {K : Type} (os : OS K) (r : ReaderAtReader.t)
    (index : Z) (buf p : slice) (w w1 : World K) (n : Z)
    (err : option oserror) :
  0 <= index < RecordCount ->
  RecordSize <= len buf ->
  reslice buf 0 RecordSize = Some p ->
  File_ReadAt os (ReaderAtReader.file r) p (index * RecordSize) w
    = ((n, err), w1) ->
  (n = RecordSize -> err = None \/ err = Some EOF ->
     ReaderAtReader.ReadRecord os r index buf w = (Ok p, w1)) /\
  (n <> RecordSize -> err = None \/ err = Some EOF ->
     ReaderAtReader.ReadRecord os r index buf w =
       (Err (ErrPartialRead RecordSize n), w1)) /\
  (forall e, err = Some e -> e <> EOF ->
     ReaderAtReader.ReadRecord os r index buf w =
       (Err (ErrReadAt (index * RecordSize) e), w1)).
Proof.
  intros Hi Hbuf Hp Hread.
  assert (Hrun : ReaderAtReader.ReadRecord os r index buf w =
     match err with
     | Some (Errno c) => (Err (ErrReadAt (index * RecordSize) (Errno c)), w1)
     | _ => if negb (n =? RecordSize)
            then (Err (ErrPartialRead RecordSize n), w1)
            else (Ok p, w1)
     end).
  { unfold ReaderAtReader.ReadRecord.
    rewrite (proj2 (out_of_range_false index) Hi).
    replace (len buf <? RecordSize) with false by (symmetry; apply Z.ltb_ge; lia).
    rewrite offset_exact by done. rewrite Hp, Hread.
    by destruct err as [[|c]|]. }
  rewrite Hrun. repeat split.
  - intros -> [->| ->]; by rewrite Z.eqb_refl.
  - intros Hn [->| ->];
      by replace (n =? RecordSize) with false by (symmetry; apply Z.eqb_neq; lia).
  - intros e -> He. by destruct e.
Qed.

(** A device that delivers the whole record and signals end-of-stream with
    it; the buffer then holds the record. *)
Lemma read_result_classified_witness :
  ReaderAtReader.ReadRecord scripted demo_reader 2 demo_buf
    (scripted_world [(replicate 100 x05, 100, Some EOF)]) =
    (Ok (Slice (Some (2%positive, 0%nat)) 100 128),
     mkWorld (store demo_heap (Slice (Some (2%positive, 0%nat)) 100 128)
                (replicate 100 x05))
             []
             [EvReadAt (Some 7%positive)
                (Slice (Some (2%positive, 0%nat)) 100 128) 200]).
Proof.
  refine (proj1 (read_result_classified scripted demo_reader 2 demo_buf
                   (Slice (Some (2%positive, 0%nat)) 100 128)
                   (scripted_world [(replicate 100 x05, 100, Some EOF)])
                   _ 100 (Some EOF) _ _ _ _) _ _).
  - geometry.
  - geometry.
  - reflexivity.
  - reflexivity.
  - reflexivity.
  - by right.
Defined.

(** C6. For a valid index whose record lies within the mapping,
    [MmapReader.ReadRecord] returns, for every buffer argument, the same
    slice header: it points into the mapping's own backing array at
    [index * RecordSize] bytes from the mapping's start, has length
    [RecordSize], and the world is returned as it was (no array added, no
    byte written).  In every store it denotes the bytes
    [index * RecordSize, index * RecordSize + RecordSize) of the mapping,
    so it is a view of the mapping and not a copy.  When the record
    reaches past the mapping's length the bounds error is returned.  The
    buffer argument never matters. *)
Theorem mapped_read_is_view {K : Type} (m : MmapReader.t) (index : Z)
    (w : World K) :
  valid (mem w) (MmapReader.data m) ->
  0 <= index < RecordCount ->
  (index * RecordSize + RecordSize <= len (MmapReader.data m) ->
     exists a st,
       ptr (MmapReader.data m) = Some (a, st) /\
       (forall buf,
          MmapReader.ReadRecord m index buf w =
            (Ok {| ptr  := Some (a, (st + Z.to_nat (index * RecordSize))%nat);
                   slen := Z.to_nat RecordSize;
                   scap := (scap (MmapReader.data m)
                            - Z.to_nat (index * RecordSize))%nat |}, w)) /\
       (forall h',
          load h' {| ptr  := Some (a, (st + Z.to_nat (index * RecordSize))%nat);
                     slen := Z.to_nat RecordSize;
                     scap := (scap (MmapReader.data m)
                              - Z.to_nat (index * RecordSize))%nat |} =
            take (Z.to_nat RecordSize)
              (drop (Z.to_nat (index * RecordSize))
                 (load h' (MmapReader.data m))))) /\
  (index * RecordSize + RecordSize > len (MmapReader.data m) ->
     forall buf,
       MmapReader.ReadRecord m index buf w = (Err (ErrExceedsBounds index), w)) /\
  (forall buf1 buf2,
     MmapReader.ReadRecord m index buf1 w = MmapReader.ReadRecord m index buf2 w).
Proof.
  intros Hv Hi. split; [|split].
  - intros Hfit.
    destruct (valid_nonempty_ptr _ _ Hv) as (a & st & arr & Hptr & _ & _).
    { unfold RecordSize in *. lia. }
    exists a, st. split; [done|].
    assert (Hre : reslice (MmapReader.data m) (index * RecordSize)
                    (index * RecordSize + RecordSize) =
              Some {| ptr  := Some (a, (st + Z.to_nat (index * RecordSize))%nat);
                      slen := Z.to_nat RecordSize;
                      scap := (scap (MmapReader.data m)
                               - Z.to_nat (index * RecordSize))%nat |}).
    { pose proof (valid_len_cap _ _ Hv).
      rewrite reslice_Some by (unfold RecordSize in *; lia).
      rewrite Hptr. simpl. do 2 f_equal. lia. }
    split.
    + intros buf.
      destruct (Mmap_ReadRecord_ok m index buf w Hv Hi Hfit) as (v & Hv' & Hread).
      rewrite Hread. rewrite Hre in Hv'. by injection Hv' as <-.
    + intros h'. rewrite (load_reslice h' _ _ _ _ Hre) by done.
      f_equal. lia.
  - intros Hover buf. by apply Mmap_ReadRecord_bounds.
  - intros buf1 buf2. reflexivity.
Qed.

(** Record 2 of the three-record mapping. *)
Lemma mapped_read_is_view_witness :
  exists a st,
    ptr (MmapReader.data demo_mreader) = Some (a, st) /\
    (forall buf,
       MmapReader.ReadRecord demo_mreader 2 buf demo_world =
         (Ok {| ptr  := Some (a, (st + Z.to_nat (2 * RecordSize))%nat);
                slen := Z.to_nat RecordSize;
                scap := (scap (MmapReader.data demo_mreader)
                         - Z.to_nat (2 * RecordSize))%nat |}, demo_world)) /\
    (forall h',
       load h' {| ptr  := Some (a, (st + Z.to_nat (2 * RecordSize))%nat);
                  slen := Z.to_nat RecordSize;
                  scap := (scap (MmapReader.data demo_mreader)
                           - Z.to_nat (2 * RecordSize))%nat |} =
         take (Z.to_nat RecordSize)
           (drop (Z.to_nat (2 * RecordSize))
              (load h' (MmapReader.data demo_mreader)))).
Proof.
  apply (mapped_read_is_view demo_mreader 2 demo_world).
  - valid_here.
  - geometry.
  - geometry.
Defined.

(** C7. For a valid index, a payload of exactly [RecordSize] bytes and a
    mapping that holds the record, [MmapWriter.WriteRecord] succeeds, makes
    no call, and afterwards bytes
    [index * RecordSize, index * RecordSize + RecordSize) of the mapping
    are the payload's bytes as they were at the call. *)
Theorem mapped_write_stores_payload {K : Type} (m : MmapWriter.t) (index : Z)
    (payload : slice) (w : World K) :
  valid (mem w) (MmapWriter.data m) ->
  valid (mem w) payload ->
  0 <= index < RecordCount ->
  len payload = RecordSize ->
  index * RecordSize + RecordSize <= len (MmapWriter.data m) ->
  exists w',
    MmapWriter.WriteRecord m index payload w = (Ok tt, w') /\
    take (Z.to_nat RecordSize)
      (drop (Z.to_nat (index * RecordSize)) (load (mem w') (MmapWriter.data m)))
      = load (mem w) payload /\
    length (load (mem w) payload) = Z.to_nat RecordSize /\
    kern w' = kern w /\ trace w' = trace w.
Proof.
  intros Hv Hvp Hi Hlen Hfit.
  destruct (Mmap_WriteRecord_ok m index payload w Hv Hi Hlen Hfit)
    as (dst & Hdst & Hwrite).
  eexists. split; [exact Hwrite|]. simpl.
  pose proof (reslice_valid _ _ _ _ _ Hv Hdst) as Hvd.
  pose proof (reslice_len _ _ _ _ Hdst) as Hld.
  pose proof (load_length _ _ Hvp) as Hlp.
  unfold len in Hlen, Hld.
  repeat split; [|lia].
  replace (Z.to_nat RecordSize) with
    (Z.to_nat (index * RecordSize + RecordSize - index * RecordSize)) by (f_equal; lia).
  rewrite <- (load_reslice _ _ _ _ _ Hdst) by done.
  unfold copy. rewrite load_store_same by (try done; lia).
  apply take_ge. lia.
Qed.

(** Writing the payload as record 1 of the three-record mapping. *)
Lemma mapped_write_stores_payload_witness :
  exists w',
    MmapWriter.WriteRecord demo_mwriter 1 demo_payload demo_world = (Ok tt, w') /\
    take (Z.to_nat RecordSize)
      (drop (Z.to_nat (1 * RecordSize))
         (load (mem w') (MmapWriter.data demo_mwriter)))
      = load (mem demo_world) demo_payload /\
    length (load (mem demo_world) demo_payload) = Z.to_nat RecordSize /\
    kern w' = kern demo_world /\ trace w' = trace demo_world.
Proof.
  apply (mapped_write_stores_payload demo_mwriter 1 demo_payload demo_world).
  - valid_here.
  - valid_here.
  - geometry.
  - geometry.
  - geometry.
Defined.

(** C8. Closing a mapped accessor, reader or writer, with a mapping and a
    file: [unix.Munmap] is called first and the file's [Close] second, on
    the kernel state the unmapping left, whatever the unmapping answered;
    the error returned is the unmapping's when it failed, and otherwise
    the one of the file's [Close]. *)
Theorem mapped_close_order {K : Type} (os : OS K) (f : positive) (d : slice)
    (w : World K) (e1 e2 : option oserror) (k1 k2 : K) :
  is_nil d = false ->
  munmap os d (kern w) = (e1, k1) ->
  fclose os (Some f) k1 = (e2, k2) ->
  MmapReader.Close os {| MmapReader.file := Some f; MmapReader.data := d |} w =
    (match e1 with Some e => Some e | None => e2 end,
     mkWorld (mem w) k2 (trace w ++ [EvMunmap d; EvClose (Some f)])) /\
  MmapWriter.Close os {| MmapWriter.file := Some f; MmapWriter.data := d |} w =
    (match e1 with Some e => Some e | None => e2 end,
     mkWorld (mem w) k2 (trace w ++ [EvMunmap d; EvClose (Some f)])).
Proof.
  intros Hd Hun Hcl.
  unfold MmapReader.Close, MmapWriter.Close, mapped_close. simpl.
  rewrite Hd. simpl. unfold unix_Munmap. rewrite Hun.
  unfold File_Close. simpl. rewrite Hcl.
  rewrite <- app_assoc. simpl. by destruct e1.
Qed.

(** Both steps fail: the unmapping with error 12, the close with error 5. *)
Lemma mapped_close_order_witness :
  MmapReader.Close scripted demo_mreader
    (scripted_world [([], 0, Some (Errno 12)); ([], 0, Some (Errno 5))]) =
    (Some (Errno 12),
     mkWorld demo_heap []
       [EvMunmap demo_mapping; EvClose (Some 7%positive)]) /\
  MmapWriter.Close scripted demo_mwriter
    (scripted_world [([], 0, Some (Errno 12)); ([], 0, Some (Errno 5))]) =
    (Some (Errno 12),
     mkWorld demo_heap []
       [EvMunmap demo_mapping; EvClose (Some 7%positive)]).
Proof.
  apply (mapped_close_order scripted 7%positive demo_mapping
           (scripted_world [([], 0, Some (Errno 12)); ([], 0, Some (Errno 5))])
           (Some (Errno 12)) (Some (Errno 5)) [([], 0, Some (Errno 5))] []).
  - reflexivity.
  - reflexivity.
  - reflexivity.
Defined.

(** C9. [EvictPages] then [WarmPages] on a mapped writer: the first makes
    one call, [unix.Madvise] with [MADV_DONTNEED] (none on a nil mapping);
    the second runs to completion, returns nothing, makes no call, and
    touches one byte at each offset of [page_offsets], which are the
    multiples of 4096 below the mapping's length, each once.  Process
    memory is the same after the two as before, so every slice, and so
    every record written earlier, denotes the bytes it did. *)
Theorem evict_warm_keep_content {K : Type} (os : OS K) (m : MmapWriter.t)
    (w : World K) :
  valid (mem w) (MmapWriter.data m) ->
  len (MmapWriter.data m) + MmapWriter.pageSize <= GoInt.max_int ->
  exists (err : option oserror) (w1 w2 : World K),
    MmapWriter.EvictPages os m w = (err, w1) /\
    MmapWriter.WarmPages m w1 = Some (Ok tt, w2) /\
    mem w1 = mem w /\ mem w2 = mem w /\
    (forall s, load (mem w2) s = load (mem w) s) /\
    trace w1 = trace w ++
      (if is_nil (MmapWriter.data m) then []
       else [EvMadvise (MmapWriter.data m) MADV_DONTNEED]) /\
    kern w2 = kern w1 /\
    trace w2 = trace w1 ++
      map (EvTouch (MmapWriter.data m)) (page_offsets (len (MmapWriter.data m))) /\
    NoDup (page_offsets (len (MmapWriter.data m))) /\
    (forall i, In i (page_offsets (len (MmapWriter.data m))) <->
               0 <= i < len (MmapWriter.data m) /\ i mod 4096 = 0).
Proof.
  intros Hv Hmax.
  assert (Hevict : exists err k,
    MmapWriter.EvictPages os m w =
      (err, mkWorld (mem w) k
              (trace w ++ if is_nil (MmapWriter.data m) then []
                          else [EvMadvise (MmapWriter.data m) MADV_DONTNEED]))).
  { unfold MmapWriter.EvictPages.
    destruct (is_nil (MmapWriter.data m)).
    - exists None, (kern w). destruct w; simpl. by rewrite app_nil_r.
    - unfold unix_Madvise.
      destruct (madvise os (MmapWriter.data m) MADV_DONTNEED (kern w)) as [err k].
      by exists err, k. }
  destruct Hevict as (err & k & Hevict).
  eexists err, _, _. split; [exact Hevict|].
  split; [by apply WarmPages_run|].
  simpl. do 6 (split; [done|]).
  split; [apply page_offsets_NoDup|].
  intros i. apply page_offsets_spec. unfold len. lia.
Qed.

(** A mapping of 10000 bytes: three pages. *)
Lemma evict_warm_keep_content_witness :
  exists (err : option oserror) (w1 w2 : World files),
    MmapWriter.EvictPages posix demo_pager demo_world = (err, w1) /\
    MmapWriter.WarmPages demo_pager w1 = Some (Ok tt, w2) /\
    mem w1 = mem demo_world /\ mem w2 = mem demo_world /\
    (forall s, load (mem w2) s = load (mem demo_world) s) /\
    trace w1 = trace demo_world ++
      (if is_nil (MmapWriter.data demo_pager) then []
       else [EvMadvise (MmapWriter.data demo_pager) MADV_DONTNEED]) /\
    kern w2 = kern w1 /\
    trace w2 = trace w1 ++
      map (EvTouch (MmapWriter.data demo_pager))
          (page_offsets (len (MmapWriter.data demo_pager))) /\
    NoDup (page_offsets (len (MmapWriter.data demo_pager))) /\
    (forall i, In i (page_offsets (len (MmapWriter.data demo_pager))) <->
               0 <= i < len (MmapWriter.data demo_pager) /\ i mod 4096 = 0).
Proof.
  apply (evict_warm_keep_content posix demo_pager demo_world).
  - valid_here.
  - vm_compute. discriminate.
Defined.

(** C10. Whatever [MmapWriter.WriteRecord] returns, every byte of process
    memory outside the cells of record [index] of the mapping is as it was,
    and so are the kernel state and the trace; and unless the call returns
    success the world itself is returned as it was. *)
Theorem mapped_write_frame {K : Type} (m : MmapWriter.t) (index : Z)
    (payload : slice) (w w' : World K) (res : outcome unit) :
  valid (mem w) (MmapWriter.data m) ->
  MmapWriter.WriteRecord m index payload w = (res, w') ->
  (forall a j, ~ record_cell (MmapWriter.data m) index a j ->
     byte_at (mem w') a j = byte_at (mem w) a j) /\
  (res <> Ok tt -> w' = w) /\
  (forall e, res = Err e ->
     w' = w /\
     (e = ErrIndexOutOfRange index RecordCount \/
      e = ErrSizeMismatch RecordSize (len payload) \/
      e = ErrExceedsBounds index)) /\
  kern w' = kern w /\ trace w' = trace w.
Proof.
  intros Hv. unfold MmapWriter.WriteRecord.
  assert (Hsame : forall e0 : error,
    e0 = ErrIndexOutOfRange index RecordCount \/
    e0 = ErrSizeMismatch RecordSize (len payload) \/
    e0 = ErrExceedsBounds index ->
    (Err e0, w) = (res, w') ->
    (forall a j, ~ record_cell (MmapWriter.data m) index a j ->
       byte_at (mem w') a j = byte_at (mem w) a j) /\
    (res <> Ok tt -> w' = w) /\
    (forall e, res = Err e ->
       w' = w /\
       (e = ErrIndexOutOfRange index RecordCount \/
        e = ErrSizeMismatch RecordSize (len payload) \/
        e = ErrExceedsBounds index)) /\
    kern w' = kern w /\ trace w' = trace w).
  { intros e0 He0 [= <- <-].
    split; [done|]. split; [done|]. split; [|done].
    intros e He. injection He as <-. by split. }
  destruct (out_of_range index) eqn:Hr; [apply Hsame; auto|].
  destruct (negb (len payload =? RecordSize)) eqn:Hs; [apply Hsame; auto|].
  apply out_of_range_false in Hr.
  rewrite offset_end_exact, offset_exact by done.
  destruct (index * RecordSize + RecordSize >? len (MmapWriter.data m)) eqn:Hb;
    [apply Hsame; auto|].
  destruct (reslice (MmapWriter.data m) (index * RecordSize)
              (index * RecordSize + RecordSize)) as [dst|] eqn:Hdst.
  2:{ intros [= <- <-]. split; [done|]. split; [done|]. split; done. }
  intros [= <- <-]. simpl.
  split; [|split; [done|split; done]].
  intros a j Hout. unfold copy. apply store_frame.
  - by eapply reslice_valid.
  - intros Hc. apply Hout. by apply (covers_record_cell _ dst); [lia|..].
Qed.

(** The write of record 1 leaves the rest of memory alone. *)
Lemma mapped_write_frame_witness :
  (forall a j, ~ record_cell (MmapWriter.data demo_mwriter) 1 a j ->
     byte_at (mem (MmapWriter.WriteRecord demo_mwriter 1 demo_payload demo_world).2) a j
       = byte_at (mem demo_world) a j) /\
  kern (MmapWriter.WriteRecord demo_mwriter 1 demo_payload demo_world).2
    = kern demo_world /\
  trace (MmapWriter.WriteRecord demo_mwriter 1 demo_payload demo_world).2
    = trace demo_world.
Proof.
  destruct (mapped_write_frame demo_mwriter 1 demo_payload demo_world
              (MmapWriter.WriteRecord demo_mwriter 1 demo_payload demo_world).2
              (MmapWriter.WriteRecord demo_mwriter 1 demo_payload demo_world).1)
    as (Hframe & _ & _ & Hk & Ht).
  - valid_here.
  - reflexivity.
  - by repeat split.
Defined.

(** * Further properties of the accessors, X1 onwards *)

(** ** More about the store *)

Lemma store_lookup_None (h : heap) (dst : slice) (bs : list byte) (a : addr) :
  h !! a = None -> store h dst bs !! a = None.
Proof.
  intros Ha. unfold store.
  destruct (ptr dst) as [[a' st]|]; [|done].
  destruct (h !! a') as [arr|] eqn:Ha'; [|done].
  rewrite lookup_insert_ne; [done|]. intros ->. congruence.
Qed.

(** A slice none of whose cells the destination covers reads the same
    after the store. *)
Lemma load_store_frame (h : heap) (dst s : slice) (bs : list byte) :
  valid h dst ->
  (forall a j, covers s a j -> ~ covers dst a j) ->
  load (store h dst bs) s = load h s.
Proof.
  intros Hd Hdisj. unfold load.
  destruct (ptr s) as [[a st]|] eqn:Hptr; [|done].
  destruct (h !! a) as [arr|] eqn:Ha; cycle 1.
  { by rewrite store_lookup_None. }
  destruct (store_length h dst bs a arr Hd Ha) as (arr' & Ha' & Hlen).
  rewrite Ha'. apply list_eq. intros k.
  destruct (decide (k < slen s)%nat) as [Hk|Hk]; cycle 1.
  { rewrite !lookup_take_ge by lia. done. }
  rewrite !lookup_take_lt, !lookup_drop by done.
  assert (Hcell : byte_at (store h dst bs) a (st + k) = byte_at h a (st + k)).
  { apply store_frame; [done|]. apply Hdisj. exists st. split; [done|lia]. }
  unfold byte_at in Hcell. by rewrite Ha, Ha' in Hcell.
Qed.

(** Two sub-slices of one slice that do not overlap. *)
Lemma reslice_covers (d v : slice) (lo hi : Z) (a : addr) (j : nat) :
  reslice d lo hi = Some v ->
  covers v a j <->
  exists st, ptr d = Some (a, st) /\
    Z.of_nat st + lo <= Z.of_nat j < Z.of_nat st + hi.
Proof.
  unfold reslice. destruct (_ && _) eqn:Hb; [|done].
  rewrite !andb_true_iff in Hb. destruct Hb as [[H0 H1] H2].
  intros [= <-]. unfold covers. simpl.
  destruct (ptr d) as [[a' st']|]; simpl.
  - split.
    + intros (st & [= <- <-] & Hj). exists st'. split; [done|]. lia.
    + intros (st & [= <- <-] & Hj). eexists. split; [done|]. lia.
  - split; intros (st & Hp & _); done.
Qed.

(** ** The positional write *)

(** X1. For a valid index and a payload of [RecordSize] bytes,
    [WriterAtWriter.WriteRecord] makes exactly one [WriteAt] call, with the
    payload's bytes at [index * RecordSize], and leaves process memory as
    it is.  Any error of that call, [io.EOF] included and whatever the
    count, is returned wrapped with the offset; with no error, a count
    other than [RecordSize] is the partial-write error; only no error with
    a full count is success. *)
Theorem write_result_classified {K : Type} (os : OS K) (wr : WriterAtWriter.t)
    (index : Z) (data : slice) (w w1 : World K) (n : Z)
    (err : option oserror) :
  0 <= index < RecordCount ->
  len data = RecordSize ->
  File_WriteAt os (WriterAtWriter.file wr) data (index * RecordSize) w
    = ((n, err), w1) ->
  (forall e, err = Some e ->
     WriterAtWriter.WriteRecord os wr index data w =
       (Err (ErrWriteAt (index * RecordSize) e), w1)) /\
  (err = None -> n <> RecordSize ->
     WriterAtWriter.WriteRecord os wr index data w =
       (Err (ErrPartialWrite RecordSize n), w1)) /\
  (err = None -> n = RecordSize ->
     WriterAtWriter.WriteRecord os wr index data w = (Ok tt, w1)) /\
  mem w1 = mem w /\
  trace w1 = trace w ++
    [EvWriteAt (WriterAtWriter.file wr) (load (mem w) data) (index * RecordSize)].
Proof.
  intros Hi Hlen Hwrite.
  assert (Hrun : WriterAtWriter.WriteRecord os wr index data w =
     match err with
     | Some e => (Err (ErrWriteAt (index * RecordSize) e), w1)
     | None => if negb (n =? RecordSize)
               then (Err (ErrPartialWrite RecordSize n), w1)
               else (Ok tt, w1)
     end).
  { unfold WriterAtWriter.WriteRecord.
    rewrite (proj2 (out_of_range_false index) Hi).
    rewrite Hlen, Z.eqb_refl. simpl negb. cbv iota.
    rewrite offset_exact by done. by rewrite Hwrite. }
  rewrite Hrun. split; [|split; [|split]].
  - by intros e ->.
  - intros -> Hn.
    by replace (n =? RecordSize) with false by (symmetry; apply Z.eqb_neq; lia).
  - intros -> ->. by rewrite Z.eqb_refl.
  - unfold File_WriteAt in Hwrite.
    destruct (pwrite os (WriterAtWriter.file wr) (load (mem w) data)
                (index * RecordSize) (kern w)) as [[n' err'] k].
    by injection Hwrite as <- <- <-.
Qed.

(** A device that reports the full count together with an error. *)
Lemma write_result_classified_witness :
  WriterAtWriter.WriteRecord scripted demo_writer 2 demo_payload
    (scripted_world [([], 100, Some EOF)]) =
    (Err (ErrWriteAt 200 EOF),
     mkWorld demo_heap []
       [EvWriteAt (Some 7%positive) (replicate 100 xff) 200]).
Proof.
  refine (proj1 (write_result_classified scripted demo_writer 2 demo_payload
                   (scripted_world [([], 100, Some EOF)]) _ 100 (Some EOF)
                   _ _ _) EOF _).
  - geometry.
  - reflexivity.
  - reflexivity.
  - reflexivity.
Defined.

(** ** Safety *)

(** X2. None of the four record operations panics, for any index, any
    payload and any environment, as long as the buffer and the mappings are
    well-formed slices: every slice expression they evaluate is within
    bounds. *)
Theorem record_operations_never_panic {K : Type} (os : OS K)
    (r : ReaderAtReader.t) (wr : WriterAtWriter.t) (mr : MmapReader.t)
    (mw : MmapWriter.t) (index : Z) (buf data : slice) (w : World K) :
  valid (mem w) buf ->
  valid (mem w) (MmapReader.data mr) ->
  valid (mem w) (MmapWriter.data mw) ->
  (ReaderAtReader.ReadRecord os r index buf w).1 <> Panic /\
  (WriterAtWriter.WriteRecord os wr index data w).1 <> Panic /\
  (MmapReader.ReadRecord mr index buf w).1 <> Panic /\
  (MmapWriter.WriteRecord mw index data w).1 <> Panic.
Proof.
  intros Hb Hr Hw.
  pose proof (valid_len_cap _ _ Hb) as Hcb.
  pose proof (valid_len_cap _ _ Hr) as Hcr.
  pose proof (valid_len_cap _ _ Hw) as Hcw.
  split; [|split; [|split]].
  - unfold ReaderAtReader.ReadRecord.
    destruct (out_of_range index); [done|].
    destruct (len buf <? RecordSize) eqn:Hl; [done|].
    apply Z.ltb_ge in Hl.
    rewrite reslice_Some by (unfold RecordSize in *; lia).
    destruct (File_ReadAt _ _ _ _ _) as [[n err] w1].
    destruct err as [[|c]|]; try done; by destruct (negb (n =? RecordSize)).
  - unfold WriterAtWriter.WriteRecord.
    destruct (out_of_range index); [done|].
    destruct (negb (len data =? RecordSize)); [done|].
    destruct (File_WriteAt _ _ _ _ _) as [[n err] w1].
    destruct err; [done|]. by destruct (negb (n =? RecordSize)).
  - unfold MmapReader.ReadRecord.
    destruct (out_of_range index) eqn:Hi; [done|].
    apply out_of_range_false in Hi.
    rewrite offset_end_exact, offset_exact by done.
    destruct (_ >? _) eqn:Hfit; [done|].
    rewrite Z.gtb_ltb in Hfit. apply Z.ltb_ge in Hfit.
    by rewrite reslice_Some by (unfold RecordSize in *; lia).
  - unfold MmapWriter.WriteRecord.
    destruct (out_of_range index) eqn:Hi; [done|].
    apply out_of_range_false in Hi.
    destruct (negb (len data =? RecordSize)); [done|].
    rewrite offset_end_exact, offset_exact by done.
    destruct (_ >? _) eqn:Hfit; [done|].
    rewrite Z.gtb_ltb in Hfit. apply Z.ltb_ge in Hfit.
    by rewrite reslice_Some by (unfold RecordSize in *; lia).
Qed.

(** A very large [int] as index, on the demo world. *)
Lemma record_operations_never_panic_witness :
  (ReaderAtReader.ReadRecord posix demo_reader (2 ^ 62) demo_buf demo_world).1
    <> Panic /\
  (WriterAtWriter.WriteRecord posix demo_writer (2 ^ 62) long_payload demo_world).1
    <> Panic /\
  (MmapReader.ReadRecord demo_mreader (2 ^ 62) demo_buf demo_world).1 <> Panic /\
  (MmapWriter.WriteRecord demo_mwriter (2 ^ 62) long_payload demo_world).1
    <> Panic.
Proof.
  apply (record_operations_never_panic posix demo_reader demo_writer
           demo_mreader demo_mwriter (2 ^ 62) demo_buf long_payload demo_world);
    valid_here.
Defined.

(** ** Record geometry *)

(** X3. For valid indices the offset the accessors compute,
    [index * RecordSize] in Go's [int], is the exact product (no
    wrap-around), lies with its record inside the
    [RecordSize * RecordCount] bytes of the file, and grows by at least
    [RecordSize] from one index to a larger one: two different records
    never share a byte. *)
Theorem record_offsets_disjoint (i j : Z) :
  0 <= i < RecordCount ->
  0 <= j < RecordCount ->
  GoInt.mul i RecordSize = i * RecordSize /\
  0 <= GoInt.mul i RecordSize /\
  GoInt.add (GoInt.mul i RecordSize) RecordSize <= RecordSize * RecordCount /\
  (i < j ->
     GoInt.add (GoInt.mul i RecordSize) RecordSize <= GoInt.mul j RecordSize) /\
  (forall (d : slice) (a : addr) (c : nat),
     record_cell d i a c -> record_cell d j a c -> i = j).
Proof.
  intros Hi Hj.
  rewrite (offset_end_exact i Hi), (offset_exact i Hi), (offset_exact j Hj).
  unfold RecordSize, RecordCount in *.
  split; [done|]. split; [lia|]. split; [lia|]. split; [lia|].
  intros d a c (st & Hp & Hc) (st' & Hp' & Hc').
  rewrite Hp in Hp'. injection Hp' as <-. unfold RecordSize in *. lia.
Qed.

(** The first and the last record. *)
Lemma record_offsets_disjoint_witness :
  GoInt.mul 0 RecordSize = 0 * RecordSize /\
  0 <= GoInt.mul 0 RecordSize /\
  GoInt.add (GoInt.mul 0 RecordSize) RecordSize <= RecordSize * RecordCount /\
  (0 < 999999 ->
     GoInt.add (GoInt.mul 0 RecordSize) RecordSize <= GoInt.mul 999999 RecordSize) /\
  (forall (d : slice) (a : addr) (c : nat),
     record_cell d 0 a c -> record_cell d 999999 a c -> 0 = 999999).
Proof.
  apply (record_offsets_disjoint 0 999999); unfold RecordCount; lia.
Defined.

(** ** Which records a mapping serves *)

Lemma fits_iff_below (index n : Z) :
  0 <= index ->
  index * RecordSize + RecordSize <= n <-> index < n / RecordSize.
Proof.
  intros Hi. unfold RecordSize. split; intros H.
  - assert (index + 1 <= n / 100) by (apply Z.div_le_lower_bound; lia). lia.
  - assert (index + 1 <= n / 100) by lia.
    pose proof (Z.mul_div_le n 100). lia.
Qed.

(** X4. The records a mapped accessor serves are a prefix of the indices:
    [MmapReader.ReadRecord] succeeds exactly for
    [0 <= index < min(RecordCount, len(data) / RecordSize)], and so does
    [MmapWriter.WriteRecord] for a payload of [RecordSize] bytes.  A
    mapping shorter than the nominal file loses its last records, a longer
    one gains none, and a trailing partial record is never served. *)
Theorem mapped_records_are_prefix {K : Type} (mr : MmapReader.t)
    (mw : MmapWriter.t) (index : Z) (buf payload : slice) (w : World K) :
  valid (mem w) (MmapReader.data mr) ->
  valid (mem w) (MmapWriter.data mw) ->
  len payload = RecordSize ->
  ((exists v, MmapReader.ReadRecord mr index buf w = (Ok v, w)) <->
   0 <= index < Z.min RecordCount (len (MmapReader.data mr) / RecordSize)) /\
  ((exists w', MmapWriter.WriteRecord mw index payload w = (Ok tt, w')) <->
   0 <= index < Z.min RecordCount (len (MmapWriter.data mw) / RecordSize)).
Proof.
  intros Hvr Hvw Hlen. split; split.
  - intros (v & Hread). unfold MmapReader.ReadRecord in Hread.
    destruct (out_of_range index) eqn:Hi; [done|].
    apply out_of_range_false in Hi.
    rewrite offset_end_exact, offset_exact in Hread by done.
    destruct (_ >? _) eqn:Hfit; [done|].
    rewrite Z.gtb_ltb in Hfit. apply Z.ltb_ge in Hfit.
    apply fits_iff_below in Hfit; lia.
  - intros Hi.
    assert (Hr : 0 <= index < RecordCount) by lia.
    destruct (Mmap_ReadRecord_ok mr index buf w Hvr Hr) as (v & _ & Hread).
    + apply fits_iff_below; lia.
    + by exists v.
  - intros (w' & Hwrite). unfold MmapWriter.WriteRecord in Hwrite.
    destruct (out_of_range index) eqn:Hi; [done|].
    apply out_of_range_false in Hi.
    destruct (negb (len payload =? RecordSize)); [done|].
    rewrite offset_end_exact, offset_exact in Hwrite by done.
    destruct (_ >? _) eqn:Hfit; [done|].
    rewrite Z.gtb_ltb in Hfit. apply Z.ltb_ge in Hfit.
    apply fits_iff_below in Hfit; lia.
  - intros Hi.
    assert (Hr : 0 <= index < RecordCount) by lia.
    destruct (Mmap_WriteRecord_ok mw index payload w Hvw Hr Hlen)
      as (dst & _ & Hwrite).
    + apply fits_iff_below; lia.
    + eauto.
Qed.

(** The three-record mapping serves indices 0, 1 and 2. *)
Lemma mapped_records_are_prefix_witness :
  ((exists v, MmapReader.ReadRecord demo_mreader 3 demo_buf demo_world
              = (Ok v, demo_world)) <->
   0 <= 3 < Z.min RecordCount (len (MmapReader.data demo_mreader) / RecordSize)) /\
  ((exists w', MmapWriter.WriteRecord demo_mwriter 2 demo_payload demo_world
               = (Ok tt, w')) <->
   0 <= 2 < Z.min RecordCount (len (MmapWriter.data demo_mwriter) / RecordSize)).
Proof.
  split.
  - apply (mapped_records_are_prefix demo_mreader demo_mwriter 3 demo_buf
             demo_payload demo_world); [valid_here|valid_here|reflexivity].
  - apply (mapped_records_are_prefix demo_mreader demo_mwriter 2 demo_buf
             demo_payload demo_world); [valid_here|valid_here|reflexivity].
Defined.

(** ** Writing and reading through one mapping *)

(** X5. A reader and a writer over the same mapping: the view
    [MmapReader.ReadRecord] returns for a record is the same slice header
    before and after [MmapWriter.WriteRecord] writes that record, and after
    the write it denotes the payload's bytes.  So a write is read back, and
    a view handed out earlier changes under the caller's hands. *)
Theorem mapped_write_then_read {K : Type} (mw : MmapWriter.t) (mr : MmapReader.t)
    (index : Z) (payload : slice) (w : World K) :
  MmapReader.data mr = MmapWriter.data mw ->
  valid (mem w) (MmapWriter.data mw) ->
  valid (mem w) payload ->
  0 <= index < RecordCount ->
  len payload = RecordSize ->
  index * RecordSize + RecordSize <= len (MmapWriter.data mw) ->
  exists (v : slice) (w' : World K),
    MmapReader.ReadRecord mr index nil_slice w = (Ok v, w) /\
    MmapWriter.WriteRecord mw index payload w = (Ok tt, w') /\
    MmapReader.ReadRecord mr index nil_slice w' = (Ok v, w') /\
    load (mem w') v = load (mem w) payload.
Proof.
  intros Hsame Hv Hvp Hi Hlen Hfit.
  destruct (Mmap_WriteRecord_ok mw index payload w Hv Hi Hlen Hfit)
    as (dst & Hdst & Hwrite).
  rewrite <- Hsame in Hv, Hfit, Hdst.
  destruct (Mmap_ReadRecord_ok mr index nil_slice w Hv Hi Hfit)
    as (v & Hview & Hread).
  rewrite Hdst in Hview. injection Hview as <-.
  pose proof (reslice_valid _ _ _ _ _ Hv Hdst) as Hvd.
  pose proof (reslice_len _ _ _ _ Hdst) as Hld.
  pose proof (load_length _ _ Hvp) as Hlp.
  unfold len in Hlen, Hld.
  eexists dst, _. split; [exact Hread|]. split; [exact Hwrite|]. split.
  - destruct (Mmap_ReadRecord_ok mr index nil_slice
                (mkWorld (copy dst payload (mem w)) (kern w) (trace w)))
      as (v' & Hview' & Hread'); try done.
    + simpl. unfold copy. by apply store_valid.
    + rewrite Hdst in Hview'. by injection Hview' as <-.
  - simpl. unfold copy. rewrite load_store_same by (try done; lia).
    apply take_ge. lia.
Qed.

(** Record 1 of the three-record mapping. *)
Lemma mapped_write_then_read_witness :
  exists (v : slice) (w' : World files),
    MmapReader.ReadRecord demo_mreader 1 nil_slice demo_world = (Ok v, demo_world) /\
    MmapWriter.WriteRecord demo_mwriter 1 demo_payload demo_world = (Ok tt, w') /\
    MmapReader.ReadRecord demo_mreader 1 nil_slice w' = (Ok v, w') /\
    load (mem w') v = load (mem demo_world) demo_payload.
Proof.
  apply (mapped_write_then_read demo_mwriter demo_mreader 1 demo_payload
           demo_world).
  - reflexivity.
  - valid_here.
  - valid_here.
  - geometry.
  - reflexivity.
  - geometry.
Defined.

(** X6. Writing record [i] through a mapping leaves every other record of
    the mapping as it was: for a valid [j] other than [i], the view of
    record [j] denotes the same bytes after the write as before, even when
    the payload itself lies in the mapping. *)
Theorem mapped_write_leaves_other_records {K : Type} (mw : MmapWriter.t)
    (mr : MmapReader.t) (i j : Z) (payload : slice) (w w' : World K)
    (res : outcome unit) :
  MmapReader.data mr = MmapWriter.data mw ->
  valid (mem w) (MmapWriter.data mw) ->
  0 <= j < RecordCount ->
  j * RecordSize + RecordSize <= len (MmapWriter.data mw) ->
  i <> j ->
  MmapWriter.WriteRecord mw i payload w = (res, w') ->
  exists v,
    MmapReader.ReadRecord mr j nil_slice w = (Ok v, w) /\
    MmapReader.ReadRecord mr j nil_slice w' = (Ok v, w') /\
    load (mem w') v = load (mem w) v.
Proof.
  intros Hsame Hv Hj Hfit Hij Hwrite.
  rewrite <- Hsame in *.
  destruct (Mmap_ReadRecord_ok mr j nil_slice w Hv Hj Hfit)
    as (v & Hview & Hread).
  exists v. split; [exact Hread|].
  unfold MmapWriter.WriteRecord in Hwrite. rewrite <- Hsame in Hwrite.
  destruct (out_of_range i) eqn:Hi;
    [injection Hwrite as <- <-; by rewrite Hread|].
  destruct (negb (len payload =? RecordSize));
    [injection Hwrite as <- <-; by rewrite Hread|].
  apply out_of_range_false in Hi.
  rewrite offset_end_exact, offset_exact in Hwrite by done.
  destruct (_ >? _); [injection Hwrite as <- <-; by rewrite Hread|].
  destruct (reslice (MmapReader.data mr) (i * RecordSize)
              (i * RecordSize + RecordSize)) as [dst|] eqn:Hdst;
    [|injection Hwrite as <- <-; by rewrite Hread].
  injection Hwrite as <- <-.
  pose proof (reslice_valid _ _ _ _ _ Hv Hdst) as Hvd.
  split.
  - destruct (Mmap_ReadRecord_ok mr j nil_slice
                (mkWorld (copy dst payload (mem w)) (kern w) (trace w)))
      as (v' & Hview' & Hread'); try done.
    + simpl. unfold copy. by apply store_valid.
    + rewrite Hview in Hview'. by injection Hview' as <-.
  - simpl. unfold copy. apply load_store_frame; [done|].
    intros a c Hcv Hcd.
    apply (reslice_covers _ _ _ _ _ _ Hview) in Hcv.
    apply (reslice_covers _ _ _ _ _ _ Hdst) in Hcd.
    destruct Hcv as (st & Hp & Hc). destruct Hcd as (st' & Hp' & Hc').
    rewrite Hp in Hp'. injection Hp' as <-.
    unfold RecordSize in *. lia.
Qed.

(** Writing record 1 and looking at record 2. *)
Lemma mapped_write_leaves_other_records_witness :
  exists v,
    MmapReader.ReadRecord demo_mreader 2 nil_slice demo_world = (Ok v, demo_world) /\
    MmapReader.ReadRecord demo_mreader 2 nil_slice
      (MmapWriter.WriteRecord demo_mwriter 1 demo_payload demo_world).2 =
      (Ok v, (MmapWriter.WriteRecord demo_mwriter 1 demo_payload demo_world).2) /\
    load (mem (MmapWriter.WriteRecord demo_mwriter 1 demo_payload demo_world).2) v
      = load (mem demo_world) v.
Proof.
  apply (mapped_write_leaves_other_records demo_mwriter demo_mreader 1 2
           demo_payload demo_world _
           (MmapWriter.WriteRecord demo_mwriter 1 demo_payload demo_world).1).
  - reflexivity.
  - valid_here.
  - geometry.
  - geometry.
  - discriminate.
  - reflexivity.
Defined.

(** X7. [MmapWriter.WriteRecord] never changes the shape of memory:
    whatever it returns, no backing array appears, disappears or changes
    size, so the mapping keeps its length and every well-formed slice
    stays well-formed with the same number of bytes. *)
Theorem mapped_write_keeps_shape {K : Type} (mw : MmapWriter.t) (index : Z)
    (payload : slice) (w w' : World K) (res : outcome unit) :
  valid (mem w) (MmapWriter.data mw) ->
  MmapWriter.WriteRecord mw index payload w = (res, w') ->
  (forall a arr, mem w !! a = Some arr ->
     exists arr', mem w' !! a = Some arr' /\ length arr' = length arr) /\
  (forall a, mem w !! a = None -> mem w' !! a = None) /\
  (forall s, valid (mem w) s ->
     valid (mem w') s /\ length (load (mem w') s) = length (load (mem w) s)).
Proof.
  intros Hv Hwrite.
  assert (Hcases : w' = w \/
    exists dst, valid (mem w) dst /\
      w' = mkWorld (store (mem w) dst (load (mem w) payload)) (kern w) (trace w)).
  { unfold MmapWriter.WriteRecord in Hwrite.
    destruct (out_of_range index); [injection Hwrite as <- <-; by left|].
    destruct (negb (len payload =? RecordSize));
      [injection Hwrite as <- <-; by left|].
    destruct (_ >? _); [injection Hwrite as <- <-; by left|].
    destruct (reslice _ _ _) as [dst|] eqn:Hdst;
      [|injection Hwrite as <- <-; by left].
    injection Hwrite as <- <-. right. exists dst. split; [|done].
    by eapply reslice_valid. }
  destruct Hcases as [->|(dst & Hvd & ->)].
  - split; [eauto|]. split; [done|]. by intros s Hs.
  - simpl. split; [intros a arr Ha; by apply store_length|].
    split; [intros a Ha; by apply store_lookup_None|].
    intros s Hs. pose proof (store_valid _ _ _ (load (mem w) payload) Hvd Hs) as Hs'.
    split; [done|]. by rewrite !load_length.
Qed.

(** Writing record 1 of the three-record mapping. *)
Lemma mapped_write_keeps_shape_witness :
  (forall a arr, mem demo_world !! a = Some arr ->
     exists arr',
       mem (MmapWriter.WriteRecord demo_mwriter 1 demo_payload demo_world).2 !! a
         = Some arr' /\ length arr' = length arr) /\
  (forall a, mem demo_world !! a = None ->
     mem (MmapWriter.WriteRecord demo_mwriter 1 demo_payload demo_world).2 !! a
       = None) /\
  (forall s, valid (mem demo_world) s ->
     valid (mem (MmapWriter.WriteRecord demo_mwriter 1 demo_payload demo_world).2) s /\
     length (load (mem (MmapWriter.WriteRecord demo_mwriter 1 demo_payload
                          demo_world).2) s)
       = length (load (mem demo_world) s)).
Proof.
  apply (mapped_write_keeps_shape demo_mwriter 1 demo_payload demo_world _
           (MmapWriter.WriteRecord demo_mwriter 1 demo_payload demo_world).1).
  - valid_here.
  - reflexivity.
Defined.

(** ** The positional read and the caller's buffer *)

(** X8. Whatever the environment delivers, [ReaderAtReader.ReadRecord]
    writes only into the first [RecordSize] bytes of the caller's buffer:
    every other byte of process memory is as it was, and every well-formed
    slice stays well-formed.  On success the slice returned is the buffer's
    own storage (same pointer, same capacity) cut to [RecordSize] bytes,
    not a copy. *)
Theorem positional_read_confined {K : Type} (os : OS K) (r : ReaderAtReader.t)
    (index : Z) (buf : slice) (w w' : World K) (res : outcome slice) :
  valid (mem w) buf ->
  ReaderAtReader.ReadRecord os r index buf w = (res, w') ->
  (forall a j,
     ~ (exists st, ptr buf = Some (a, st) /\
          (st <= j < st + Z.to_nat RecordSize)%nat) ->
     byte_at (mem w') a j = byte_at (mem w) a j) /\
  (forall s, res = Ok s ->
     ptr s = ptr buf /\ len s = RecordSize /\ cap s = cap buf) /\
  (forall s, valid (mem w) s -> valid (mem w') s).
Proof.
  intros Hv Hread. unfold ReaderAtReader.ReadRecord in Hread.
  destruct (out_of_range index);
    [injection Hread as <- <-; split; [done|split; [by intros s ?|done]]|].
  destruct (len buf <? RecordSize) eqn:Hl;
    [injection Hread as <- <-; split; [done|split; [by intros s ?|done]]|].
  apply Z.ltb_ge in Hl. pose proof (valid_len_cap _ _ Hv) as Hcap.
  destruct (reslice buf 0 RecordSize) as [p|] eqn:Hp;
    [|injection Hread as <- <-; split; [done|split; [by intros s ?|done]]].
  pose proof (reslice_valid _ _ _ _ _ Hv Hp) as Hvp.
  unfold File_ReadAt in Hread.
  destruct (pread os (ReaderAtReader.file r) (slen p)
              (GoInt.mul index RecordSize) (kern w)) as [[[bs n] err] k].
  assert (Hshape : ptr p = ptr buf /\ len p = RecordSize /\ cap p = cap buf).
  { rewrite reslice_Some in Hp by (unfold RecordSize in *; lia).
    injection Hp as <-. unfold len, cap. simpl.
    split; [|unfold RecordSize; lia].
    destruct (ptr buf) as [[a st]|]; [|done]. simpl. by rewrite Nat.add_0_r. }
  assert (Hmem : mem w' = store (mem w) p bs /\ forall s, res = Ok s -> s = p).
  { destruct err as [[|c]|]; try destruct (negb (n =? RecordSize));
      injection Hread as <- <-; split; try done; by intros s [= <-]. }
  destruct Hmem as [Hmem Hres]. rewrite Hmem.
  split; [|split].
  - intros a j Hout. apply store_frame; [done|]. intros Hc. apply Hout.
    apply (reslice_covers _ _ _ _ _ _ Hp) in Hc.
    destruct Hc as (st & Hptr & Hj). exists st. split; [done|].
    unfold RecordSize in *. lia.
  - intros s Hs. by rewrite (Hres s Hs).
  - intros s Hs. by apply store_valid.
Qed.

(** A device that delivers 120 bytes into the 128-byte buffer. *)
Lemma positional_read_confined_witness :
  (forall a j,
     ~ (exists st, ptr demo_buf = Some (a, st) /\
          (st <= j < st + Z.to_nat RecordSize)%nat) ->
     byte_at (mem (ReaderAtReader.ReadRecord scripted demo_reader 0 demo_buf
                     (scripted_world [(replicate 120 x05, 100, None)])).2) a j
       = byte_at demo_heap a j) /\
  (forall s,
     (ReaderAtReader.ReadRecord scripted demo_reader 0 demo_buf
        (scripted_world [(replicate 120 x05, 100, None)])).1 = Ok s ->
     ptr s = ptr demo_buf /\ len s = RecordSize /\ cap s = cap demo_buf) /\
  (forall s, valid demo_heap s ->
     valid (mem (ReaderAtReader.ReadRecord scripted demo_reader 0 demo_buf
                   (scripted_world [(replicate 120 x05, 100, None)])).2) s).
Proof.
  apply (positional_read_confined scripted demo_reader 0 demo_buf
           (scripted_world [(replicate 120 x05, 100, None)])).
  - valid_here.
  - reflexivity.
Defined.

(** ** Teardown with nil fields *)

(** X9. Closing a mapped accessor, reader or writer alike, calls
    [unix.Munmap] only when the mapping is not nil and the file's [Close]
    only when the file is not nil, in that order, and touches no memory;
    on the zero value (both nil) it makes no call and returns nil. *)
Theorem mapped_close_skips_nil_fields {K : Type} (os : OS K) (f : File)
    (d : slice) (w : World K) :
  MmapWriter.Close os {| MmapWriter.file := f; MmapWriter.data := d |} w =
    MmapReader.Close os {| MmapReader.file := f; MmapReader.data := d |} w /\
  trace (MmapReader.Close os
           {| MmapReader.file := f; MmapReader.data := d |} w).2 =
    trace w ++ (if is_nil d then [] else [EvMunmap d])
            ++ (match f with Some _ => [EvClose f] | None => [] end) /\
  mem (MmapReader.Close os
         {| MmapReader.file := f; MmapReader.data := d |} w).2 = mem w /\
  (is_nil d = true /\ f = None ->
     MmapReader.Close os {| MmapReader.file := f; MmapReader.data := d |} w
       = (None, w)).
Proof.
  split; [reflexivity|].
  unfold MmapReader.Close, mapped_close, unix_Munmap, File_Close. simpl.
  destruct (is_nil d); simpl.
  - destruct f as [h|]; simpl.
    + destruct (fclose os (Some h) (kern w)) as [e2 k2]. simpl.
      split; [done|]. split; [done|]. by intros [_ ?].
    + rewrite app_nil_r. split; [done|]. split; [done|]. intros _. by destruct w.
  - destruct (munmap os d (kern w)) as [e1 k1]. simpl.
    destruct f as [h|]; simpl.
    + destruct (fclose os (Some h) k1) as [e2 k2]. simpl.
      rewrite <- app_assoc.
      destruct e1; simpl; (split; [done|]; split; [done|]; by intros [? _]).
    + destruct e1; simpl; (split; [done|]; split; [done|]; by intros [? _]).
Qed.

(** ** Files and mappings after a write *)

Lemma splice_length (content : list byte) (off : nat) (b : list byte) :
  length (splice content off b) = Nat.max (length content) (off + length b).
Proof.
  unfold splice.
  rewrite !length_app, length_take, length_app, length_replicate, length_drop.
  lia.
Qed.

Lemma splice_record (content : list byte) (off : nat) (b : list byte) :
  take (length b) (drop off (splice content off b)) = b.
Proof.
  unfold splice.
  rewrite drop_app_length'
    by (rewrite length_take, length_app, length_replicate; lia).
  by rewrite take_app_length.
Qed.

Lemma splice_outside (content : list byte) (off : nat) (b : list byte) (j : nat) :
  (j < length content)%nat -> ~ (off <= j < off + length b)%nat ->
  splice content off b !! j = content !! j.
Proof.
  intros Hj Hout. unfold splice.
  destruct (decide (j < off)%nat) as [Hlt|Hge].
  - rewrite lookup_app_l
      by (rewrite length_take, length_app, length_replicate; lia).
    rewrite lookup_take_lt by done. by rewrite lookup_app_l.
  - rewrite lookup_app_r
      by (rewrite length_take, length_app, length_replicate; lia).
    rewrite length_take, length_app, length_replicate.
    rewrite lookup_app_r by lia.
    rewrite lookup_drop. f_equal. lia.
Qed.

Lemma splice_gap (content : list byte) (off : nat) (b : list byte) (j : nat) :
  (length content <= j < off)%nat -> splice content off b !! j = Some x00.
Proof.
  intros Hj. unfold splice.
  rewrite lookup_app_l
    by (rewrite length_take, length_app, length_replicate; lia).
  rewrite lookup_take_lt by lia. rewrite lookup_app_r by lia.
  apply lookup_replicate_2. lia.
Qed.

(** A list is determined by its length, one window and the rest. *)
Lemma window_determines (l1 l2 c b : list byte) (off : nat) :
  length l1 = length c -> length l2 = length c ->
  (off + length b <= length c)%nat ->
  take (length b) (drop off l1) = b ->
  take (length b) (drop off l2) = b ->
  (forall j, ~ (off <= j < off + length b)%nat -> l1 !! j = c !! j) ->
  (forall j, ~ (off <= j < off + length b)%nat -> l2 !! j = c !! j) ->
  l1 = l2.
Proof.
  intros Hl1 Hl2 Hfit Hw1 Hw2 Ho1 Ho2. apply list_eq. intros j.
  destruct (decide (off <= j < off + length b)%nat) as [Hin|Hout].
  - assert (Hj : forall l, take (length b) (drop off l) = b ->
                           l !! j = b !! (j - off)%nat).
    { intros l Hl.
      transitivity (take (length b) (drop off l) !! (j - off)%nat);
        [|by rewrite Hl].
      rewrite lookup_take_lt, lookup_drop by lia. f_equal. lia. }
    by rewrite (Hj l1 Hw1), (Hj l2 Hw2).
  - by rewrite Ho1, Ho2.
Qed.

Lemma load_lookup (h : heap) (s : slice) (a : addr) (st j : nat) :
  ptr s = Some (a, st) -> (j < slen s)%nat ->
  load h s !! j = byte_at h a (st + j).
Proof.
  intros Hp Hj. unfold load, byte_at. rewrite Hp.
  destruct (h !! a) as [arr|]; simpl; [|done].
  by rewrite lookup_take_lt, lookup_drop.
Qed.

(** Outside the window written, a slice reads the same after a store into
    one of its sub-slices. *)
Lemma load_store_outside (h : heap) (d dst : slice) (bs : list byte)
    (lo hi : Z) (j : nat) :
  valid h d -> reslice d lo hi = Some dst ->
  ~ (lo <= Z.of_nat j < hi) ->
  load (store h dst bs) d !! j = load h d !! j.
Proof.
  intros Hv Hdst Hout.
  pose proof (reslice_valid _ _ _ _ _ Hv Hdst) as Hvd.
  destruct (decide (j < slen d)%nat) as [Hj|Hj]; cycle 1.
  { rewrite !lookup_ge_None_2; [done|..];
      rewrite load_length; try lia; try done. by apply store_valid. }
  destruct (ptr d) as [[a st]|] eqn:Hptr; cycle 1.
  { destruct Hv as [? Hp]. rewrite Hptr in Hp. lia. }
  rewrite !(load_lookup _ d a st j) by done.
  apply store_frame; [done|]. intros Hc.
  apply (reslice_covers _ _ _ _ _ _ Hdst) in Hc.
  destruct Hc as (st' & Hp' & Hc). rewrite Hptr in Hp'. injection Hp' as <-.
  lia.
Qed.

(** What the positional write leaves in the world of [posix]. *)
Lemma posix_WriteRecord_file (wr : WriterAtWriter.t) (h : positive)
    (content : list byte) (index : Z) (data : slice) (w : World files) :
  WriterAtWriter.file wr = Some h ->
  kern w !! h = Some content ->
  valid (mem w) data -> len data = RecordSize ->
  0 <= index < RecordCount ->
  WriterAtWriter.WriteRecord posix wr index data w =
    (Ok tt,
     mkWorld (mem w)
       (<[h := splice content (Z.to_nat (index * RecordSize))
                 (load (mem w) data)]> (kern w))
       (trace w ++ [EvWriteAt (Some h) (load (mem w) data)
                              (index * RecordSize)])).
Proof.
  intros Hf Hk Hv Hlen Hi.
  unfold WriterAtWriter.WriteRecord.
  rewrite (proj2 (out_of_range_false index) Hi).
  rewrite Hlen, Z.eqb_refl. simpl negb. cbv iota.
  rewrite offset_exact by done.
  unfold File_WriteAt. rewrite Hf. simpl pwrite. unfold posix_pwrite.
  rewrite Hk.
  replace (index * RecordSize <? 0) with false
    by (symmetry; apply Z.ltb_ge; unfold RecordSize; lia).
  assert (Hb : Z.of_nat (length (load (mem w) data)) = RecordSize).
  { by rewrite (load_length _ _ Hv). }
  cbv zeta. rewrite Hb, Z.eqb_refl.
  simpl negb. cbv iota. reflexivity.
Qed.

(** A positional read that reaches past the end of the file. *)
Lemma posix_ReadRecord_short (r : ReaderAtReader.t) (h : positive)
    (content : list byte) (index : Z) (buf : slice) (w : World files) :
  ReaderAtReader.file r = Some h ->
  kern w !! h = Some content ->
  valid (mem w) buf -> RecordSize <= len buf ->
  0 <= index < RecordCount ->
  Z.of_nat (length content) < index * RecordSize + RecordSize ->
  exists w1,
    ReaderAtReader.ReadRecord posix r index buf w =
      (Err (ErrPartialRead RecordSize
              (Z.max 0 (Z.of_nat (length content) - index * RecordSize))), w1).
Proof.
  intros Hf Hk Hv Hbuf Hi Hshort.
  pose proof (valid_len_cap _ _ Hv) as Hcap.
  unfold ReaderAtReader.ReadRecord.
  rewrite (proj2 (out_of_range_false index) Hi).
  replace (len buf <? RecordSize) with false by (symmetry; apply Z.ltb_ge; lia).
  rewrite offset_exact by done.
  rewrite reslice_Some by (unfold RecordSize in *; lia).
  rewrite Hf. unfold File_ReadAt. simpl pread. unfold posix_pread.
  rewrite Hk.
  replace (index * RecordSize <? 0) with false
    by (symmetry; apply Z.ltb_ge; unfold RecordSize; lia).
  simpl slen.
  assert (Hgot : Z.of_nat (length (take (Z.to_nat (RecordSize - 0))
                    (drop (Z.to_nat (index * RecordSize)) content))) =
                 Z.max 0 (Z.of_nat (length content) - index * RecordSize)).
  { rewrite length_take, length_drop. unfold RecordSize in *. lia. }
  replace (length (take (Z.to_nat (RecordSize - 0))
             (drop (Z.to_nat (index * RecordSize)) content))
           <? Z.to_nat (RecordSize - 0))%nat with true
    by (symmetry; apply Nat.ltb_lt; unfold RecordSize in *; lia).
  rewrite Hgot.
  replace (Z.max 0 (Z.of_nat (length content) - index * RecordSize) =? RecordSize)
    with false by (symmetry; apply Z.eqb_neq; unfold RecordSize in *; lia).
  simpl negb. cbv iota. eauto.
Qed.

Lemma splice_other_window (content b : list byte) (off lo n : nat) :
  (lo + n <= length content)%nat ->
  (lo + n <= off \/ off + length b <= lo)%nat ->
  take n (drop lo (splice content off b)) = take n (drop lo content).
Proof.
  intros Hfit Hdisj. apply list_eq. intros k.
  destruct (decide (k < n)%nat) as [Hk|Hk].
  - rewrite !lookup_take_lt, !lookup_drop by done.
    apply splice_outside; lia.
  - by rewrite !lookup_take_ge by lia.
Qed.

(** The bytes a successful positional read leaves in the slice returned. *)
Lemma posix_ReadRecord_bytes (r : ReaderAtReader.t) (h : positive)
    (content : list byte) (index : Z) (buf : slice) (w : World files) :
  ReaderAtReader.file r = Some h ->
  kern w !! h = Some content ->
  valid (mem w) buf -> RecordSize <= len buf ->
  0 <= index < RecordCount ->
  index * RecordSize + RecordSize <= Z.of_nat (length content) ->
  exists s w1,
    ReaderAtReader.ReadRecord posix r index buf w = (Ok s, w1) /\
    kern w1 = kern w /\
    load (mem w1) s =
      take (Z.to_nat RecordSize) (drop (Z.to_nat (index * RecordSize)) content).
Proof.
  intros Hf Hk Hv Hbuf Hi Hfit.
  destruct (posix_ReadRecord_ok r h content index buf w) as (p & Hp & Hread);
    try done.
  pose proof (reslice_valid _ _ _ _ _ Hv Hp) as Hvp.
  pose proof (reslice_len _ _ _ _ Hp) as Hlp. unfold len in Hlp.
  eexists p, _. split; [exact Hread|]. split; [done|]. simpl.
  assert (Hbs : length (take (Z.to_nat RecordSize)
                  (drop (Z.to_nat (index * RecordSize)) content))
                = Z.to_nat RecordSize).
  { rewrite length_take, length_drop. unfold RecordSize in *. lia. }
  rewrite load_store_same by (try done; lia).
  apply take_ge. lia.
Qed.

(** X10. On a file system that behaves, a successful
    [WriterAtWriter.WriteRecord] leaves the payload's bytes at
    [index * RecordSize] in the file and every other byte the file had as
    it was; the file keeps its length when it held the record, and a write
    past its end extends it to the end of the record, with zero bytes in
    the gap.  Other open files and process memory are not touched. *)
Theorem positional_write_updates_file (wr : WriterAtWriter.t) (h : positive)
    (content : list byte) (index : Z) (data : slice) (w : World files) :
  WriterAtWriter.file wr = Some h ->
  kern w !! h = Some content ->
  valid (mem w) data ->
  len data = RecordSize ->
  0 <= index < RecordCount ->
  exists (content' : list byte) (w' : World files),
    WriterAtWriter.WriteRecord posix wr index data w = (Ok tt, w') /\
    kern w' !! h = Some content' /\
    mem w' = mem w /\
    (forall h', h' <> h -> kern w' !! h' = kern w !! h') /\
    Z.of_nat (length content') =
      Z.max (Z.of_nat (length content)) (index * RecordSize + RecordSize) /\
    take (Z.to_nat RecordSize) (drop (Z.to_nat (index * RecordSize)) content')
      = load (mem w) data /\
    (forall j : nat,
       (j < length content)%nat ->
       ~ (index * RecordSize <= Z.of_nat j < index * RecordSize + RecordSize) ->
       content' !! j = content !! j) /\
    (forall j : nat,
       Z.of_nat (length content) <= Z.of_nat j < index * RecordSize ->
       content' !! j = Some x00).
Proof.
  intros Hf Hk Hv Hlen Hi.
  pose proof (load_length _ _ Hv) as Hb. unfold len in Hlen.
  eexists _, _. split; [by apply (posix_WriteRecord_file wr h content)|].
  simpl. split; [apply lookup_insert_eq|]. split; [done|].
  split; [intros h' Hne; by apply lookup_insert_ne|].
  split; [rewrite splice_length; unfold RecordSize in *; lia|].
  split.
  - replace (Z.to_nat RecordSize) with (length (load (mem w) data)) by lia.
    apply splice_record.
  - split.
    + intros j Hj Hout. apply splice_outside; [done|].
      unfold RecordSize in *. lia.
    + intros j Hj. apply splice_gap. unfold RecordSize in *. lia.
Qed.

(** Record 5 written to the three-record file: the file grows to six
    records. *)
Lemma positional_write_updates_file_witness :
  exists (content' : list byte) (w' : World files),
    WriterAtWriter.WriteRecord posix demo_writer 5 demo_payload demo_world
      = (Ok tt, w') /\
    kern w' !! 7%positive = Some content' /\
    mem w' = mem demo_world /\
    (forall h', h' <> 7%positive -> kern w' !! h' = kern demo_world !! h') /\
    Z.of_nat (length content') =
      Z.max (Z.of_nat (length demo_file)) (5 * RecordSize + RecordSize) /\
    take (Z.to_nat RecordSize) (drop (Z.to_nat (5 * RecordSize)) content')
      = load (mem demo_world) demo_payload /\
    (forall j : nat,
       (j < length demo_file)%nat ->
       ~ (5 * RecordSize <= Z.of_nat j < 5 * RecordSize + RecordSize) ->
       content' !! j = demo_file !! j) /\
    (forall j : nat,
       Z.of_nat (length demo_file) <= Z.of_nat j < 5 * RecordSize ->
       content' !! j = Some x00).
Proof.
  apply (positional_write_updates_file demo_writer 7%positive demo_file 5
           demo_payload demo_world).
  - reflexivity.
  - reflexivity.
  - valid_here.
  - reflexivity.
  - geometry.
Defined.

(** X11. A reader and a writer on one open file of a file system that
    behaves: after [WriterAtWriter.WriteRecord] wrote a record,
    [ReaderAtReader.ReadRecord] of the same index succeeds and returns the
    payload's bytes, and it returns for every other record the file held
    the bytes that record had before the write. *)
Theorem positional_write_then_read (wr : WriterAtWriter.t)
    (r : ReaderAtReader.t) (h : positive) (content : list byte) (index : Z)
    (data buf : slice) (w : World files) :
  WriterAtWriter.file wr = Some h ->
  ReaderAtReader.file r = Some h ->
  kern w !! h = Some content ->
  valid (mem w) data -> len data = RecordSize ->
  valid (mem w) buf -> RecordSize <= len buf ->
  0 <= index < RecordCount ->
  exists w1 : World files,
    WriterAtWriter.WriteRecord posix wr index data w = (Ok tt, w1) /\
    (exists s w2,
       ReaderAtReader.ReadRecord posix r index buf w1 = (Ok s, w2) /\
       load (mem w2) s = load (mem w) data) /\
    (forall j,
       0 <= j < RecordCount -> j <> index ->
       j * RecordSize + RecordSize <= Z.of_nat (length content) ->
       exists s w2,
         ReaderAtReader.ReadRecord posix r j buf w1 = (Ok s, w2) /\
         load (mem w2) s =
           take (Z.to_nat RecordSize)
             (drop (Z.to_nat (j * RecordSize)) content)).
Proof.
  intros Hfw Hfr Hk Hvd Hlen Hvb Hbuf Hi.
  pose proof (load_length _ _ Hvd) as Hb. unfold len in Hlen.
  eexists. split; [by apply (posix_WriteRecord_file wr h content)|].
  set (c' := splice content (Z.to_nat (index * RecordSize)) (load (mem w) data)).
  assert (Hk' : forall tr, kern (mkWorld (mem w) (<[h := c']> (kern w)) tr) !! h
                           = Some c').
  { intros tr. apply lookup_insert_eq. }
  assert (Hlen' : length c' =
            Nat.max (length content)
                    (Z.to_nat (index * RecordSize) + Z.to_nat RecordSize)).
  { unfold c'. rewrite splice_length. lia. }
  split.
  - destruct (posix_ReadRecord_bytes r h c' index buf
                (mkWorld (mem w) (<[h := c']> (kern w))
                   (trace w ++ [EvWriteAt (Some h) (load (mem w) data)
                                          (index * RecordSize)])))
      as (s & w2 & Hread & _ & Hbytes); try done.
    { unfold RecordSize in *. lia. }
    exists s, w2. split; [done|]. rewrite Hbytes.
    replace (Z.to_nat RecordSize) with (length (load (mem w) data)) by lia.
    apply splice_record.
  - intros j Hj Hne Hfit.
    destruct (posix_ReadRecord_bytes r h c' j buf
                (mkWorld (mem w) (<[h := c']> (kern w))
                   (trace w ++ [EvWriteAt (Some h) (load (mem w) data)
                                          (index * RecordSize)])))
      as (s & w2 & Hread & _ & Hbytes); try done.
    { unfold RecordSize in *. lia. }
    exists s, w2. split; [done|]. rewrite Hbytes.
    apply splice_other_window; unfold RecordSize in *; lia.
Qed.

(** Record 1 of the three-record file, written then read. *)
Lemma positional_write_then_read_witness :
  exists w1 : World files,
    WriterAtWriter.WriteRecord posix demo_writer 1 demo_payload demo_world
      = (Ok tt, w1) /\
    (exists s w2,
       ReaderAtReader.ReadRecord posix demo_reader 1 demo_buf w1 = (Ok s, w2) /\
       load (mem w2) s = load (mem demo_world) demo_payload) /\
    (forall j,
       0 <= j < RecordCount -> j <> 1 ->
       j * RecordSize + RecordSize <= Z.of_nat (length demo_file) ->
       exists s w2,
         ReaderAtReader.ReadRecord posix demo_reader j demo_buf w1 = (Ok s, w2) /\
         load (mem w2) s =
           take (Z.to_nat RecordSize)
             (drop (Z.to_nat (j * RecordSize)) demo_file)).
Proof.
  apply (positional_write_then_read demo_writer demo_reader 7%positive
           demo_file 1 demo_payload demo_buf demo_world).
  - reflexivity.
  - reflexivity.
  - reflexivity.
  - valid_here.
  - reflexivity.
  - valid_here.
  - geometry.
  - geometry.
Defined.

(** The whole mapping after a mapped write: its old bytes with the payload
    put in place. *)
Lemma Mmap_WriteRecord_content {K : Type} (mw : MmapWriter.t) (index : Z)
    (data : slice) (w : World K) :
  valid (mem w) (MmapWriter.data mw) ->
  valid (mem w) data -> len data = RecordSize ->
  0 <= index < RecordCount ->
  index * RecordSize + RecordSize <= len (MmapWriter.data mw) ->
  exists w',
    MmapWriter.WriteRecord mw index data w = (Ok tt, w') /\
    kern w' = kern w /\ trace w' = trace w /\
    load (mem w') (MmapWriter.data mw) =
      splice (load (mem w) (MmapWriter.data mw))
             (Z.to_nat (index * RecordSize)) (load (mem w) data).
Proof.
  intros Hvm Hvd Hlen Hi Hfitm.
  pose proof (load_length _ _ Hvd) as Hb.
  pose proof (load_length _ _ Hvm) as Hm.
  set (content := load (mem w) (MmapWriter.data mw)) in *.
  set (b := load (mem w) data) in *.
  set (off := Z.to_nat (index * RecordSize)).
  destruct (Mmap_WriteRecord_ok mw index data w Hvm Hi Hlen Hfitm)
    as (dst & Hdst & Hwrite).
  pose proof (reslice_valid _ _ _ _ _ Hvm Hdst) as Hvdst.
  pose proof (reslice_len _ _ _ _ Hdst) as Hld.
  unfold len in Hlen, Hld, Hfitm.
  eexists. split; [exact Hwrite|]. simpl.
  split; [done|]. split; [done|].
  unfold copy. fold b.
  assert (Hrb : Z.to_nat RecordSize = length b) by lia.
  apply (window_determines _ _ content b off).
  - rewrite load_length by (by apply store_valid). lia.
  - rewrite splice_length. unfold off. unfold RecordSize in *. lia.
  - unfold off. unfold RecordSize in *. lia.
  - rewrite <- Hrb.
    replace (Z.to_nat RecordSize) with
      (Z.to_nat (index * RecordSize + RecordSize - index * RecordSize))
      by (f_equal; lia).
    rewrite <- (load_reslice _ _ _ _ _ Hdst) by (unfold len; lia).
    rewrite load_store_same by (try done; lia).
    apply take_ge. lia.
  - apply splice_record.
  - intros j Hout.
    by rewrite (load_store_outside _ _ _ _ _ _ _ Hvm Hdst)
      by (unfold off, RecordSize in *; lia).
  - intros j Hout.
    destruct (decide (j < length content)%nat) as [Hj|Hj].
    + by apply splice_outside.
    + rewrite !lookup_ge_None_2; [done|lia|].
      rewrite splice_length. unfold off, RecordSize in *. lia.
Qed.

(** X12. The two writers agree: starting from a file and a mapping with
    the same content, writing the same payload at the same valid index
    with [WriterAtWriter.WriteRecord] (on a file system that behaves) and
    with [MmapWriter.WriteRecord] leaves the file and the mapping with the
    same content again. *)
Theorem writers_agree (wr : WriterAtWriter.t) (mw : MmapWriter.t) (h : positive)
    (content : list byte) (index : Z) (data : slice) (w : World files) :
  WriterAtWriter.file wr = Some h ->
  kern w !! h = Some content ->
  valid (mem w) (MmapWriter.data mw) ->
  load (mem w) (MmapWriter.data mw) = content ->
  valid (mem w) data -> len data = RecordSize ->
  0 <= index < RecordCount ->
  index * RecordSize + RecordSize <= Z.of_nat (length content) ->
  exists (w1 w2 : World files) (content' : list byte),
    WriterAtWriter.WriteRecord posix wr index data w = (Ok tt, w1) /\
    MmapWriter.WriteRecord mw index data w1 = (Ok tt, w2) /\
    kern w2 !! h = Some content' /\
    load (mem w2) (MmapWriter.data mw) = content'.
Proof.
  intros Hf Hk Hvm Hmap Hvd Hlen Hi Hfit.
  pose proof (load_length _ _ Hvm) as Hm. rewrite Hmap in Hm.
  pose proof (posix_WriteRecord_file wr h content index data w Hf Hk Hvd Hlen Hi)
    as Hpos.
  destruct (Mmap_WriteRecord_content mw index data
              (mkWorld (mem w)
                 (<[h := splice content (Z.to_nat (index * RecordSize))
                           (load (mem w) data)]> (kern w))
                 (trace w ++ [EvWriteAt (Some h) (load (mem w) data)
                                        (index * RecordSize)])))
    as (w2 & Hwrite & Hk2 & _ & Hcontent); try done.
  { unfold len. lia. }
  eexists _, w2, _. split; [exact Hpos|]. split; [exact Hwrite|].
  rewrite Hk2, Hcontent. simpl. rewrite Hmap.
  split; [apply lookup_insert_eq|done].
Qed.

(** Record 2 of the three-record file and of its mapping. *)
Lemma writers_agree_witness :
  exists (w1 w2 : World files) (content' : list byte),
    WriterAtWriter.WriteRecord posix demo_writer 2 demo_payload demo_world
      = (Ok tt, w1) /\
    MmapWriter.WriteRecord demo_mwriter 2 demo_payload w1 = (Ok tt, w2) /\
    kern w2 !! 7%positive = Some content' /\
    load (mem w2) (MmapWriter.data demo_mwriter) = content'.
Proof.
  apply (writers_agree demo_writer demo_mwriter 7%positive demo_file 2
           demo_payload demo_world).
  - reflexivity.
  - reflexivity.
  - valid_here.
  - reflexivity.
  - valid_here.
  - reflexivity.
  - geometry.
  - geometry.
Defined.

(** X13. The two readers serve the same records: on a file system that
    behaves, for a file and a mapping of that file,
    [ReaderAtReader.ReadRecord] succeeds for a valid index exactly when
    [MmapReader.ReadRecord] does, namely when the file holds the whole
    record.  When it does not, the mapped reader returns the bounds error
    without touching anything, and the positional reader returns the
    partial-read error with the number of bytes the file still had. *)
Theorem readers_serve_same_records (r : ReaderAtReader.t) (m : MmapReader.t)
    (h : positive) (content : list byte) (index : Z) (buf : slice)
    (w : World files) :
  ReaderAtReader.file r = Some h ->
  kern w !! h = Some content ->
  valid (mem w) (MmapReader.data m) ->
  load (mem w) (MmapReader.data m) = content ->
  valid (mem w) buf ->
  RecordSize <= len buf ->
  0 <= index < RecordCount ->
  ((exists s w1, ReaderAtReader.ReadRecord posix r index buf w = (Ok s, w1)) <->
   (exists v, MmapReader.ReadRecord m index nil_slice w = (Ok v, w))) /\
  (Z.of_nat (length content) < index * RecordSize + RecordSize ->
   MmapReader.ReadRecord m index nil_slice w = (Err (ErrExceedsBounds index), w) /\
   exists w1,
     ReaderAtReader.ReadRecord posix r index buf w =
       (Err (ErrPartialRead RecordSize
               (Z.max 0 (Z.of_nat (length content) - index * RecordSize))), w1)).
Proof.
  intros Hf Hk Hvm Hmap Hvb Hbuf Hi.
  pose proof (load_length _ _ Hvm) as Hm. rewrite Hmap in Hm.
  assert (Hshort : Z.of_nat (length content) < index * RecordSize + RecordSize ->
    MmapReader.ReadRecord m index nil_slice w = (Err (ErrExceedsBounds index), w) /\
    exists w1,
      ReaderAtReader.ReadRecord posix r index buf w =
        (Err (ErrPartialRead RecordSize
                (Z.max 0 (Z.of_nat (length content) - index * RecordSize))), w1)).
  { intros Hlt. split.
    - apply Mmap_ReadRecord_bounds; [done|]. unfold len. lia.
    - by apply (posix_ReadRecord_short r h content). }
  split; [|exact Hshort].
  destruct (Z_lt_le_dec (Z.of_nat (length content))
              (index * RecordSize + RecordSize)) as [Hlt|Hge].
  - destruct (Hshort Hlt) as (Hmm & w1 & Hrr). split.
    + intros (s & w1' & Hok). rewrite Hrr in Hok. done.
    + intros (v & Hok). rewrite Hmm in Hok. done.
  - split; intros _.
    + destruct (Mmap_ReadRecord_ok m index nil_slice w Hvm Hi) as (v & _ & Hok);
        [unfold len; lia|]. eauto.
    + destruct (posix_ReadRecord_ok r h content index buf w) as (p & _ & Hok);
        try done. eauto.
Qed.

(** Index 3 of the three-record file: both readers refuse. *)
Lemma readers_serve_same_records_witness :
  MmapReader.ReadRecord demo_mreader 3 nil_slice demo_world
    = (Err (ErrExceedsBounds 3), demo_world) /\
  exists w1,
    ReaderAtReader.ReadRecord posix demo_reader 3 demo_buf demo_world =
      (Err (ErrPartialRead RecordSize
              (Z.max 0 (Z.of_nat (length demo_file) - 3 * RecordSize))), w1).
Proof.
  apply (readers_serve_same_records demo_reader demo_mreader 7%positive
           demo_file 3 demo_buf demo_world).
  - reflexivity.
  - reflexivity.
  - valid_here.
  - reflexivity.
  - valid_here.
  - geometry.
  - geometry.
  - geometry.
Defined.

(** ** The constructors *)

Lemma fresh_handle_unused (k : files) : k !! fresh (dom k) = None.
Proof. apply not_elem_of_dom, is_fresh. Qed.

(** A new backing array leaves the slices of the old ones as they were. *)
Lemma valid_insert_fresh (h : heap) (a : addr) (c : list byte) (s : slice) :
  h !! a = None -> valid h s ->
  valid (<[a := c]> h) s /\ load (<[a := c]> h) s = load h s /\
  separate {| ptr := Some (a, 0%nat); slen := length c; scap := length c |} s.
Proof.
  intros Ha [Hle Hp]. unfold valid, load, separate. simpl.
  destruct (ptr s) as [[a' st]|]; [|done].
  destruct Hp as (arr & Harr & Hb).
  assert (Hne : a <> a') by congruence.
  rewrite lookup_insert_ne by done. rewrite Harr. by eauto 10.
Qed.

Lemma posix_NewReaderAtReader_ok (disk : gmap string (list byte))
    (name : string) (content : list byte) (w : World files) :
  disk !! name = Some content ->
  NewReaderAtReader (posix_opener disk) name w =
    (Built {| ReaderAtReader.file := Some (fresh (dom (kern w))) |},
     mkWorld (mem w) (<[fresh (dom (kern w)) := content]> (kern w)) (trace w)).
Proof.
  intros Hd. unfold NewReaderAtReader, os_Open, os_OpenFile. simpl.
  unfold posix_open. by rewrite Hd.
Qed.

Lemma posix_NewMmapReader_ok (disk : gmap string (list byte))
    (name : string) (content : list byte) (w : World files) :
  disk !! name = Some content -> content <> [] ->
  NewMmapReader posix (posix_opener disk) name w =
    (Built {| MmapReader.file := Some (fresh (dom (kern w)));
              MmapReader.data :=
                Slice (Some (fresh (dom (mem w)), 0%nat))
                      (length content) (length content) |},
     mkWorld (<[fresh (dom (mem w)) := content]> (mem w))
             (<[fresh (dom (kern w)) := content]> (kern w)) (trace w)).
Proof.
  intros Hd Hne.
  unfold NewMmapReader, os_Open, os_OpenFile, File_Stat, unix_Mmap. simpl.
  unfold posix_open. rewrite Hd. simpl.
  rewrite lookup_insert_eq. simpl. rewrite lookup_insert_eq.
  assert (Hpos : 0 < Z.of_nat (length content)) by (destruct content; [done|simpl; lia]).
  replace ((Z.of_nat (length content) <=? 0) || (0 <? 0)) with false
    by (symmetry; apply orb_false_iff; split; [apply Z.leb_gt|apply Z.ltb_ge]; lia).
  simpl. rewrite Nat2Z.id, drop_0, take_ge by done. done.
Qed.

Lemma posix_NewMmapWriter_ok (disk : gmap string (list byte))
    (name : string) (content : list byte) (w : World files) :
  disk !! name = Some content -> content <> [] ->
  NewMmapWriter posix (posix_opener disk) name w =
    (Built {| MmapWriter.file := Some (fresh (dom (kern w)));
              MmapWriter.data :=
                Slice (Some (fresh (dom (mem w)), 0%nat))
                      (length content) (length content) |},
     mkWorld (<[fresh (dom (mem w)) := content]> (mem w))
             (<[fresh (dom (kern w)) := content]> (kern w)) (trace w)).
Proof.
  intros Hd Hne.
  unfold NewMmapWriter, os_OpenFile, File_Stat, unix_Mmap. simpl.
  unfold posix_open. rewrite Hd. simpl.
  rewrite lookup_insert_eq. simpl. rewrite lookup_insert_eq.
  assert (Hpos : 0 < Z.of_nat (length content)) by (destruct content; [done|simpl; lia]).
  replace ((Z.of_nat (length content) <=? 0) || (0 <? 0)) with false
    by (symmetry; apply orb_false_iff; split; [apply Z.leb_gt|apply Z.ltb_ge]; lia).
  simpl. rewrite Nat2Z.id, drop_0, take_ge by done. done.
Qed.

Lemma posix_NewWriterAtWriter_ok (disk : gmap string (list byte))
    (name : string) (content : list byte) (w : World files) :
  disk !! name = Some content ->
  NewWriterAtWriter (posix_opener disk) name w =
    (Built {| WriterAtWriter.file := Some (fresh (dom (kern w))) |},
     mkWorld (mem w) (<[fresh (dom (kern w)) := content]> (kern w)) (trace w)).
Proof.
  intros Hd. unfold NewWriterAtWriter, os_OpenFile. simpl.
  unfold posix_open. by rewrite Hd.
Qed.

Lemma fresh_mapping_valid (h : heap) (c : list byte) :
  valid (<[fresh (dom h) := c]> h)
    (Slice (Some (fresh (dom h), 0%nat)) (length c) (length c)) /\
  load (<[fresh (dom h) := c]> h)
    (Slice (Some (fresh (dom h), 0%nat)) (length c) (length c)) = c.
Proof.
  unfold valid, load. simpl. rewrite lookup_insert_eq. split.
  - split; [done|]. exists c. by split.
  - by rewrite drop_0, take_ge.
Qed.



(** X15. On a file system that behaves, both mapped constructors succeed
    on a file that exists and is not empty.  The accessor holds a handle
    that was not in use, and its mapping is a new backing array, a
    well-formed slice whose length is the size of the file and whose bytes
    are the file's; every slice that was well-formed before is so after,
    with the same bytes, and lies outside the mapping. *)
Theorem mapping_holds_file (disk : gmap string (list byte)) (name : string)
    (content : list byte) (w : World files) :
  disk !! name = Some content ->
  content <> [] ->
  exists (h : positive) (d : slice) (w' : World files),
    kern w !! h = None /\
    NewMmapReader posix (posix_opener disk) name w =
      (Built {| MmapReader.file := Some h; MmapReader.data := d |}, w') /\
    NewMmapWriter posix (posix_opener disk) name w =
      (Built {| MmapWriter.file := Some h; MmapWriter.data := d |}, w') /\
    kern w' !! h = Some content /\
    valid (mem w') d /\
    len d = Z.of_nat (length content) /\
    load (mem w') d = content /\
    trace w' = trace w /\
    (forall s, valid (mem w) s ->
       valid (mem w') s /\ load (mem w') s = load (mem w) s /\ separate d s).
Proof.
  intros Hd Hne.
  eexists _, _, _. split; [apply fresh_handle_unused|].
  split; [by apply posix_NewMmapReader_ok|].
  split; [by apply posix_NewMmapWriter_ok|].
  simpl. split; [apply lookup_insert_eq|].
  destruct (fresh_mapping_valid (mem w) content) as [Hv Hl].
  split; [done|]. split; [done|]. split; [done|]. split; [done|].
  intros s Hs. apply valid_insert_fresh; [|done].
  apply not_elem_of_dom, is_fresh.
Qed.

(** The three-record file of the demo disk. *)
Lemma mapping_holds_file_witness :
  exists (h : positive) (d : slice) (w' : World files),
    kern demo_world !! h = None /\
    NewMmapReader posix (posix_opener demo_disk) "data.bin" demo_world =
      (Built {| MmapReader.file := Some h; MmapReader.data := d |}, w') /\
    NewMmapWriter posix (posix_opener demo_disk) "data.bin" demo_world =
      (Built {| MmapWriter.file := Some h; MmapWriter.data := d |}, w') /\
    kern w' !! h = Some demo_file /\
    valid (mem w') d /\
    len d = Z.of_nat (length demo_file) /\
    load (mem w') d = demo_file /\
    trace w' = trace demo_world /\
    (forall s, valid (mem demo_world) s ->
       valid (mem w') s /\ load (mem w') s = load (mem demo_world) s /\
       separate d s).
Proof.
  apply (mapping_holds_file demo_disk "data.bin" demo_file demo_world).
  - reflexivity.
  - discriminate.
Defined.

(** X16. On a file system that behaves, a mapped constructor that fails
    leaves nothing behind: for a file that does not exist it returns the
    wrapped open error with the world as it was, and for an empty file
    (which cannot be mapped) it returns the wrapped mapping error after
    closing the handle, so that the table of open files and process memory
    are as they were. *)
Theorem failed_mapping_leaves_nothing (disk : gmap string (list byte))
    (name : string) (w : World files) :
  (disk !! name = None ->
     NewMmapReader posix (posix_opener disk) name w
       = (Failed (ErrOpen ENOENT), w) /\
     NewMmapWriter posix (posix_opener disk) name w
       = (Failed (ErrOpenForWriting ENOENT), w)) /\
  (disk !! name = Some [] ->
     NewMmapReader posix (posix_opener disk) name w =
       (Failed (ErrMmap EINVAL),
        mkWorld (mem w) (kern w)
          (trace w ++ [EvClose (Some (fresh (dom (kern w))))])) /\
     NewMmapWriter posix (posix_opener disk) name w =
       (Failed (ErrMmapForWriting EINVAL),
        mkWorld (mem w) (kern w)
          (trace w ++ [EvClose (Some (fresh (dom (kern w))))]))).
Proof.
  split; intros Hd;
    unfold NewMmapReader, NewMmapWriter, os_Open, os_OpenFile, File_Stat,
      unix_Mmap, File_Close; simpl; unfold posix_open; rewrite Hd; simpl.
  - by destruct w.
  - rewrite !lookup_insert_eq. simpl. rewrite !lookup_insert_eq. simpl.
    rewrite !lookup_insert_eq.
    by rewrite delete_insert_id by apply fresh_handle_unused.
Qed.

(** A name the demo disk does not have, and its empty file. *)
Lemma failed_mapping_leaves_nothing_witness :
  (NewMmapReader posix (posix_opener demo_disk) "missing.bin" demo_world
     = (Failed (ErrOpen ENOENT), demo_world) /\
   NewMmapWriter posix (posix_opener demo_disk) "missing.bin" demo_world
     = (Failed (ErrOpenForWriting ENOENT), demo_world)) /\
  (NewMmapReader posix (posix_opener demo_disk) "empty.bin" demo_world =
     (Failed (ErrMmap EINVAL),
      mkWorld (mem demo_world) (kern demo_world)
        (trace demo_world ++ [EvClose (Some (fresh (dom (kern demo_world))))])) /\
   NewMmapWriter posix (posix_opener demo_disk) "empty.bin" demo_world =
     (Failed (ErrMmapForWriting EINVAL),
      mkWorld (mem demo_world) (kern demo_world)
        (trace demo_world ++ [EvClose (Some (fresh (dom (kern demo_world))))]))).
Proof.
  split.
  - apply (failed_mapping_leaves_nothing demo_disk "missing.bin" demo_world).
    reflexivity.
  - apply (failed_mapping_leaves_nothing demo_disk "empty.bin" demo_world).
    reflexivity.
Defined.

(** X17. The consistency test end to end, on a file system that behaves:
    open the positional reader and the mapped reader on the same file name,
    then read any valid index whose record the file holds with both, the
    first into a caller's buffer of at least [RecordSize] bytes, the second
    with a nil buffer.  Both constructors and both reads succeed, and the
    two slices returned denote the same bytes: the record's bytes in the
    file. *)
Theorem opened_readers_agree (disk : gmap string (list byte)) (name : string)
    (content : list byte) (index : Z) (buf : slice) (w : World files) :
  disk !! name = Some content ->
  valid (mem w) buf ->
  RecordSize <= len buf ->
  0 <= index < RecordCount ->
  index * RecordSize + RecordSize <= Z.of_nat (length content) ->
  exists (r : ReaderAtReader.t) (m : MmapReader.t) (w1 w2 w3 : World files)
         (s1 s2 : slice),
    NewReaderAtReader (posix_opener disk) name w = (Built r, w1) /\
    NewMmapReader posix (posix_opener disk) name w1 = (Built m, w2) /\
    ReaderAtReader.ReadRecord posix r index buf w2 = (Ok s1, w3) /\
    MmapReader.ReadRecord m index nil_slice w3 = (Ok s2, w3) /\
    load (mem w3) s1 = load (mem w3) s2 /\
    load (mem w3) s2 =
      take (Z.to_nat RecordSize) (drop (Z.to_nat (index * RecordSize)) content).
Proof.
  intros Hd Hvb Hbuf Hi Hfit.
  assert (Hne : content <> []).
  { intros ->. simpl in Hfit. unfold RecordSize in *. lia. }
  set (h1 := fresh (dom (kern w))).
  set (w1 := mkWorld (mem w) (<[h1 := content]> (kern w)) (trace w)).
  set (h2 := fresh (dom (kern w1))).
  set (a := fresh (dom (mem w1))).
  set (d := Slice (Some (a, 0%nat)) (length content) (length content)).
  set (w2 := mkWorld (<[a := content]> (mem w1)) (<[h2 := content]> (kern w1))
               (trace w1)).
  assert (Hmap : valid (mem w2) d /\ load (mem w2) d = content)
    by apply fresh_mapping_valid.
  destruct Hmap as [Hvd Hld].
  assert (Hbuf2 : valid (mem w2) buf /\ load (mem w2) buf = load (mem w1) buf /\
                  separate d buf).
  { apply valid_insert_fresh; [|done]. apply not_elem_of_dom, is_fresh. }
  destruct Hbuf2 as (Hvb2 & _ & Hsep).
  assert (Hk2 : kern w2 !! h1 = Some content).
  { simpl. rewrite lookup_insert_ne.
    - apply lookup_insert_eq.
    - intros Heq. pose proof (fresh_handle_unused (kern w1)) as Hf.
      fold h2 in Hf. rewrite Heq in Hf. simpl in Hf.
      by rewrite lookup_insert_eq in Hf. }
  destruct (posix_ReadRecord_ok {| ReaderAtReader.file := Some h1 |} h1 content
              index buf w2) as (p & Hp & Hread); try done.
  set (bs := take (Z.to_nat RecordSize)
               (drop (Z.to_nat (index * RecordSize)) content)) in *.
  set (w3 := mkWorld (store (mem w2) p bs) (kern w2)
               (trace w2 ++ [EvReadAt (Some h1) p (index * RecordSize)])) in *.
  pose proof (reslice_valid _ _ _ _ _ Hvb2 Hp) as Hvp.
  pose proof (reslice_len _ _ _ _ Hp) as Hlp. unfold len in Hlp.
  assert (Hvd3 : valid (mem w3) d) by (by apply store_valid).
  assert (Hfitd : index * RecordSize + RecordSize <= len d).
  { unfold len, d. simpl. lia. }
  destruct (Mmap_ReadRecord_ok
              {| MmapReader.file := Some h2; MmapReader.data := d |}
              index nil_slice w3 Hvd3 Hi Hfitd) as (v & Hv & Hmread).
  assert (Hbs : length bs = Z.to_nat RecordSize).
  { unfold bs. rewrite length_take, length_drop. unfold RecordSize in *. lia. }
  assert (Hs2 : load (mem w3) v = bs).
  { rewrite (load_reslice _ _ _ _ _ Hv) by done.
    change (mem w3) with (store (mem w2) p bs).
    rewrite load_store_separate by (by eapply reslice_separate).
    change (MmapReader.data
              {| MmapReader.file := Some h2; MmapReader.data := d |}) with d.
    rewrite Hld. unfold bs. f_equal. lia. }
  exists {| ReaderAtReader.file := Some h1 |},
         {| MmapReader.file := Some h2; MmapReader.data := d |},
         w1, w2, w3, p, v.
  split; [by apply posix_NewReaderAtReader_ok|].
  split; [by apply posix_NewMmapReader_ok|].
  split; [exact Hread|]. split; [exact Hmread|].
  split; [|exact Hs2]. rewrite Hs2.
  change (mem w3) with (store (mem w2) p bs).
  rewrite load_store_same by (try done; lia).
  apply take_ge. lia.
Qed.

(** Record 2 of the three-record file of the demo disk. *)
Lemma opened_readers_agree_witness :
  exists (r : ReaderAtReader.t) (m : MmapReader.t) (w1 w2 w3 : World files)
         (s1 s2 : slice),
    NewReaderAtReader (posix_opener demo_disk) "data.bin" demo_world
      = (Built r, w1) /\
    NewMmapReader posix (posix_opener demo_disk) "data.bin" w1 = (Built m, w2) /\
    ReaderAtReader.ReadRecord posix r 2 demo_buf w2 = (Ok s1, w3) /\
    MmapReader.ReadRecord m 2 nil_slice w3 = (Ok s2, w3) /\
    load (mem w3) s1 = load (mem w3) s2 /\
    load (mem w3) s2 =
      take (Z.to_nat RecordSize) (drop (Z.to_nat (2 * RecordSize)) demo_file).
Proof.
  apply (opened_readers_agree demo_disk "data.bin" demo_file 2 demo_buf
           demo_world).
  - reflexivity.
  - valid_here.
  - geometry.
  - geometry.
  - geometry.
Defined.



(** X19. On a file system that behaves, opening and then closing is
    clean for all four accessors: the constructor succeeds on an existing
    file (not empty, for the mapped ones), [Close] then returns no error,
    and the table of open files is what it was before the accessor was
    built.  The positional accessors make the one call [Close]; the mapped
    ones [unix.Munmap] of their mapping and then [Close]. *)
Theorem open_then_close_is_clean (disk : gmap string (list byte))
    (name : string) (content : list byte) (w : World files) :
  disk !! name = Some content ->
  (exists r w1 w2,
     NewReaderAtReader (posix_opener disk) name w = (Built r, w1) /\
     ReaderAtReader.Close posix r w1 = (None, w2) /\
     kern w2 = kern w /\ mem w2 = mem w /\
     trace w2 = trace w ++ [EvClose (ReaderAtReader.file r)]) /\
  (exists wr w1 w2,
     NewWriterAtWriter (posix_opener disk) name w = (Built wr, w1) /\
     WriterAtWriter.Close posix wr w1 = (None, w2) /\
     kern w2 = kern w /\ mem w2 = mem w /\
     trace w2 = trace w ++ [EvClose (WriterAtWriter.file wr)]) /\
  (content <> [] ->
   exists mr mw w1 w2,
     NewMmapReader posix (posix_opener disk) name w = (Built mr, w1) /\
     NewMmapWriter posix (posix_opener disk) name w = (Built mw, w1) /\
     MmapReader.Close posix mr w1 = (None, w2) /\
     MmapWriter.Close posix mw w1 = (None, w2) /\
     kern w2 = kern w /\
     trace w2 = trace w ++
       [EvMunmap (MmapReader.data mr); EvClose (MmapReader.file mr)]).
Proof.
  intros Hd.
  pose proof (fresh_handle_unused (kern w)) as Hfresh.
  split; [|split].
  - eexists _, _, _. split; [by apply posix_NewReaderAtReader_ok|].
    unfold ReaderAtReader.Close, File_Close. simpl.
    rewrite lookup_insert_eq. simpl.
    by rewrite delete_insert_id.
  - eexists _, _, _. split; [by apply posix_NewWriterAtWriter_ok|].
    unfold WriterAtWriter.Close, File_Close. simpl.
    rewrite lookup_insert_eq. simpl.
    by rewrite delete_insert_id.
  - intros Hne. eexists _, _, _, _.
    split; [by apply posix_NewMmapReader_ok|].
    split; [by apply posix_NewMmapWriter_ok|].
    unfold MmapReader.Close, MmapWriter.Close, mapped_close, unix_Munmap,
      File_Close. simpl.
    rewrite lookup_insert_eq. simpl.
    rewrite delete_insert_id by done. rewrite <- app_assoc. by simpl.
Qed.

(** The three-record file of the demo disk. *)
Lemma open_then_close_is_clean_witness :
  exists mr mw w1 w2,
    NewMmapReader posix (posix_opener demo_disk) "data.bin" demo_world
      = (Built mr, w1) /\
    NewMmapWriter posix (posix_opener demo_disk) "data.bin" demo_world
      = (Built mw, w1) /\
    MmapReader.Close posix mr w1 = (None, w2) /\
    MmapWriter.Close posix mw w1 = (None, w2) /\
    kern w2 = kern demo_world /\
    trace w2 = trace demo_world ++
      [EvMunmap (MmapReader.data mr); EvClose (MmapReader.file mr)].
Proof.
  apply (open_then_close_is_clean demo_disk "data.bin" demo_file demo_world).
  - reflexivity.
  - discriminate.
Defined.
